(** * P2PTransport: peer registry, pairing listener and message routing

    A shallow embedding of [src/transports/P2PTransport.ts].  The transport
    talks to three collaborators (the storage, the P2P communication client
    and the event handler); none of them is part of the file, so they
    are modelled as a deterministic environment that answers every call
    with success, a failure or silence, and with a settling delay.  Every
    collaborator call is recorded, which makes call counts and call order
    observable.

    An [async] method is a computation in a state and outcome monad: it
    runs to its end, to its first rejection, or to an [await] on a promise
    that does not settle.  A logical clock tells when promises settle,
    which is what [Promise.all] depends on.  Methods run one at a time;
    the one place where two calls are interleaved, the guard of
    [connectNewPeer], is split at each [await] of the executor and the
    suspended executors are resumed in the order in which the promises
    they wait for settle. *)

From Stdlib Require Import String List Bool Arith PeanoNat Lia.
Import ListNotations.
Local Open Scope string_scope.
Local Open Scope list_scope.
Local Open Scope nat_scope.

Set Implicit Arguments.

(** ** Data model *)

(** One entry of the list kept under [StorageKey.TRANSPORT_P2P_PEERS]:
    the object literals built in [addPeer] and in the channel-opening
    callback have exactly these three fields. *)
Record Peer : Type := mkPeer {
  name : string;
  pubKey : string;
  relayServer : string
}.

(** Modelled from the spec: the enumeration [TransportStatus] is declared
    outside the sources.  The transport writes [CONNECTING] itself; the
    other two members are the states [Disconnected] and [Connected] of
    section 3. *)
Inductive TransportStatus : Type :=
| NOT_CONNECTED
| CONNECTING
| CONNECTED.

Inductive BeaconEvent : Type :=
| P2P_CHANNEL_CONNECT_SUCCESS
| P2P_LISTEN_FOR_CHANNEL_OPEN.

(** What [getHandshakeInfo] resolves with; the transport only forwards it. *)
Definition HandshakeInfo : Type := string.

(** Values a promise can be rejected with. *)
Inductive exn : Type :=
| Error (message : string).

(** The collaborator methods the transport invokes, with their arguments.
    The callbacks passed to the listen methods are not arguments of the
    model: the one given to [listenForChannelOpening] is the function
    [channelOpeningCallback] below; the one given to
    [listenForEncryptedMessage] only forwards the message to the base
    class and is left out. *)
Inductive Call : Type :=
| Start
| StorageGet
| StorageSet (peers : list Peer)
| ListenForChannelOpening
| GetHandshakeInfo
| OpenChannel (pk relay : string)
| SendMessage (recipient message : string)
| ListenForEncryptedMessage (pk : string)
| UnsubscribeFromEncryptedMessage (pk : string)
| UnsubscribeFromEncryptedMessages
| Emit (event : BeaconEvent) (data : option HandshakeInfo).

(** Lines written through [logger] and [console.warn]. *)
Inductive LogMsg : Type :=
| LConnect
| LConnecting (n : nat)
| LConnectNewPeer
| LNewPubKey (pk : string)
| LGetPeers
| LConnectedPeers (n : nat)
| LAddPeer (p : Peer)
| LPeerAdded (n : nat)
| LRemovePeer (p : Peer)
| LPeersLeft (n : nat)
| LRemoveAllPeers
| LError (e : exn)
| LWarn (e : exn).

(** How a promise ends: fulfilled, rejected, or never settled. *)
Inductive Outcome (A : Type) : Type :=
| Fulfilled (a : A)
| Rejected (e : exn)
| Pending.

Arguments Fulfilled {A} a.
Arguments Rejected {A} e.
Arguments Pending {A}.

(** A promise returned by a collaborator: its outcome and the instant of
    the logical clock at which it settles. *)
Record Promise (A : Type) : Type := mkPromise {
  result : Outcome A;
  settlesAt : nat
}.

(** What a collaborator does with one call: its promise is fulfilled,
    rejected, or never settled. *)
Inductive Answer : Type :=
| Succeeds
| Fails (e : exn)
| Hangs.

(** The answer to one call and the time the promise takes to settle. *)
Record Reply : Type := mkReply {
  answer : Answer;
  latency : nat
}.

(** The collaborators: an answer for every call, as a function of the calls
    made so far, and the advertisement handed out by [getHandshakeInfo]. *)
Record Env : Type := mkEnv {
  reply : list Call -> Call -> Reply;
  handshakeInfo : list Call -> HandshakeInfo
}.

(** The transport object together with the world around it. *)
Record State : Type := mkState {
  (* fields of the P2PTransport instance *)
  isDapp : bool;
  listeningForChannelOpenings : bool;
  _isConnected : TransportStatus;
  (* the value stored under StorageKey.TRANSPORT_P2P_PEERS *)
  stored : list Peer;
  (* collaborator calls and log lines, oldest first *)
  calls : list Call;
  logged : list LogMsg;
  (* logical time *)
  now : nat;
  (* whether [resolve] of the promise built in [connectNewPeer] was called *)
  pairingResolved : bool
}.

Definition set_listening (b : bool) (s : State) : State :=
  mkState (isDapp s) b (_isConnected s) (stored s) (calls s) (logged s)
          (now s) (pairingResolved s).

Definition set_status (st : TransportStatus) (s : State) : State :=
  mkState (isDapp s) (listeningForChannelOpenings s) st (stored s) (calls s)
          (logged s) (now s) (pairingResolved s).

Definition set_stored (ps : list Peer) (s : State) : State :=
  mkState (isDapp s) (listeningForChannelOpenings s) (_isConnected s) ps
          (calls s) (logged s) (now s) (pairingResolved s).

Definition record_call (c : Call) (s : State) : State :=
  mkState (isDapp s) (listeningForChannelOpenings s) (_isConnected s)
          (stored s) (calls s ++ [c]) (logged s) (now s) (pairingResolved s).

Definition record_log (l : LogMsg) (s : State) : State :=
  mkState (isDapp s) (listeningForChannelOpenings s) (_isConnected s)
          (stored s) (calls s) (logged s ++ [l]) (now s) (pairingResolved s).

Definition advance_to (t : nat) (s : State) : State :=
  mkState (isDapp s) (listeningForChannelOpenings s) (_isConnected s)
          (stored s) (calls s) (logged s) (Nat.max (now s) t)
          (pairingResolved s).

Definition set_resolved (s : State) : State :=
  mkState (isDapp s) (listeningForChannelOpenings s) (_isConnected s)
          (stored s) (calls s) (logged s) (now s) true.

(** ** The monad of asynchronous code

    [M A] is an [async] body run up to its end, its first rejection or a
    promise that never settles.  [Async A] is a call that only starts the
    work and hands back the promise. *)

Definition M (A : Type) : Type := State -> Outcome A * State.
Definition Async (A : Type) : Type := State -> Promise A * State.

Definition ret {A : Type} (a : A) : M A := fun s => (Fulfilled a, s).

Definition throw {A : Type} (e : exn) : M A := fun s => (Rejected e, s).

Definition bind {A B : Type} (m : M A) (k : A -> M B) : M B :=
  fun s =>
    match m s with
    | (Fulfilled a, s') => k a s'
    | (Rejected e, s') => (Rejected e, s')
    | (Pending, s') => (Pending, s')
    end.

Declare Scope tx_scope.
Delimit Scope tx_scope with tx.
Notation "x <- m ;; k" := (bind m (fun x => k))
  (at level 61, m at next level, right associativity) : tx_scope.
Notation "m ;; k" := (bind m (fun _ => k))
  (at level 61, right associativity) : tx_scope.
Local Open Scope tx_scope.

Definition modify (f : State -> State) : M unit := fun s => (Fulfilled tt, f s).

Definition read {A : Type} (f : State -> A) : M A := fun s => (Fulfilled (f s), s).

Definition log (l : LogMsg) : M unit := modify (record_log l).

(** [await p]: the body resumes when [p] has settled. *)
Definition await_promise {A : Type} (p : Promise A) : M A :=
  fun s =>
    match result p with
    | Pending => (Pending, s)
    | o => (o, advance_to (settlesAt p) s)
    end.

Definition await {A : Type} (a : Async A) : M A :=
  fun s => let (p, s') := a s in await_promise p s'.

(** Calling an asynchronous function without awaiting it. *)
Definition start_call {A : Type} (a : Async A) : M (Promise A) :=
  fun s => let (p, s') := a s in (Fulfilled p, s').

(** [Array.prototype.map] with a callback that starts one call per
    element: the calls are started in index order, at once. *)
Fixpoint map_async {X A : Type} (f : X -> Async A) (l : list X)
  : M (list (Promise A)) :=
  match l with
  | [] => ret []
  | x :: l' =>
      p <- start_call (f x) ;;
      ps <- map_async f l' ;;
      ret (p :: ps)
  end.

(** [Promise.all]: rejected as soon as one member is rejected (with that
    member's reason; the earliest one, and the lowest index among
    simultaneous ones), fulfilled when the last member is fulfilled,
    pending while a member stays pending. *)
Fixpoint first_rejection {A : Type} (ps : list (Promise A))
  : option (nat * exn) :=
  match ps with
  | [] => None
  | p :: ps' =>
      match result p, first_rejection ps' with
      | Rejected e, Some (t, e') =>
          if settlesAt p <=? t then Some (settlesAt p, e) else Some (t, e')
      | Rejected e, None => Some (settlesAt p, e)
      | _, r => r
      end
  end.

Fixpoint all_fulfilled {A : Type} (ps : list (Promise A))
  : option (list A * nat) :=
  match ps with
  | [] => Some ([], 0)
  | p :: ps' =>
      match result p, all_fulfilled ps' with
      | Fulfilled a, Some (vs, t) => Some (a :: vs, Nat.max (settlesAt p) t)
      | _, _ => None
      end
  end.

Definition Promise_all {A : Type} (ps : list (Promise A)) : Promise (list A) :=
  match first_rejection ps with
  | Some (t, e) => mkPromise (Rejected e) t
  | None =>
      match all_fulfilled ps with
      | Some (vs, t) => mkPromise (Fulfilled vs) t
      | None => mkPromise Pending 0
      end
  end.

(** [promise.catch(handler)] on a promise nobody awaits: the caller goes
    on at once and a rejection only reaches the handler, which logs it.
    The log line is recorded where the call is made, so its position among
    later log lines carries no information. *)
Definition catch_log {A : Type} (a : Async A) (handler : exn -> LogMsg)
  : M unit :=
  fun s =>
    let (p, s') := a s in
    match result p with
    | Rejected e => (Fulfilled tt, record_log (handler e) s')
    | _ => (Fulfilled tt, s')
    end.

(** [new Promise(async (resolve) => ...)]: the executor runs, its own
    completion or rejection is observed by nobody, and the promise stays
    pending until [resolve] is called from elsewhere. *)
Definition new_Promise {A B : Type} (executor : M B) : M A :=
  fun s => let (_, s') := executor s in (Pending, s').

(** ** The collaborators *)

Section Transport.

Variable env : Env.

(** One call: it is recorded, answered by the environment from the calls
    made before it, and on success takes effect on the world. *)
Definition collaborator {A : Type} (c : Call) (value : State -> A)
    (effect : State -> State) : Async A :=
  fun s =>
    let r := reply env (calls s) c in
    match answer r with
    | Succeeds => (mkPromise (Fulfilled (value s)) (now s + latency r),
                   effect (record_call c s))
    | Fails e => (mkPromise (Rejected e) (now s + latency r), record_call c s)
    | Hangs => (mkPromise Pending (now s + latency r), record_call c s)
    end.

Definition plain (c : Call) : Async unit :=
  collaborator c (fun _ => tt) (fun s => s).

(** [storage.get(StorageKey.TRANSPORT_P2P_PEERS)]: the stored list, as a
    value of its own (pushing to it does not touch the store). *)
Definition storage_get : Async (list Peer) :=
  collaborator StorageGet stored (fun s => s).

(** [storage.set(StorageKey.TRANSPORT_P2P_PEERS, peers)]: an accepted
    write replaces the stored list. *)
Definition storage_set (peers : list Peer) : Async unit :=
  collaborator (StorageSet peers) (fun _ => tt) (set_stored peers).

Definition client_start : Async unit := plain Start.

Definition client_listenForChannelOpening : Async unit :=
  plain ListenForChannelOpening.

Definition client_getHandshakeInfo : Async HandshakeInfo :=
  collaborator GetHandshakeInfo (fun s => handshakeInfo env (calls s))
               (fun s => s).

Definition client_openChannel (pk relay : string) : Async unit :=
  plain (OpenChannel pk relay).

Definition client_sendMessage (recipient message : string) : Async unit :=
  plain (SendMessage recipient message).

Definition client_listenForEncryptedMessage (pk : string) : Async unit :=
  plain (ListenForEncryptedMessage pk).

Definition client_unsubscribeFromEncryptedMessage (pk : string) : Async unit :=
  plain (UnsubscribeFromEncryptedMessage pk).

Definition client_unsubscribeFromEncryptedMessages : Async unit :=
  plain UnsubscribeFromEncryptedMessages.

Definition events_emit (event : BeaconEvent) (data : option HandshakeInfo)
  : Async unit :=
  plain (Emit event data).

(** ** The transport *)

(** Modelled from the spec: the base class [Transport] is not among the
    sources.  Its [connect], reached through [super.connect()], is taken
    to do what section 4.4 says of the last step of connecting: the state
    becomes [Connected]. *)
Definition Transport_connect : M unit := modify (set_status CONNECTED).

(** [knownPeers.some((peer) => peer.pubKey === key)] *)
Definition known (key : string) (peers : list Peer) : bool :=
  existsb (fun peer => String.eqb (pubKey peer) key) peers.

(** [listen]: the promise of [listenForEncryptedMessage], whose [catch]
    throws the reason again. *)
Definition listen (pk : string) : Async unit :=
  client_listenForEncryptedMessage pk.

(** The callback given to [listenForChannelOpening] (lines 81 to 98). *)
Definition channelOpeningCallback (pk : string) : M unit :=
  log (LNewPubKey pk) ;;
  knownPeers <- await storage_get ;;
  (if negb (known pk knownPeers) then
     let knownPeers' := knownPeers ++ [mkPeer "" pk ""] in
     catch_log (storage_set knownPeers') LError ;;
     await (listen pk)
   else ret tt) ;;
  catch_log (events_emit P2P_CHANNEL_CONNECT_SUCCESS None) LWarn ;;
  modify set_resolved.

(** The executor of [connectNewPeer] up to its first suspension: the guard
    is read and, when it is down, [listenForChannelOpening] is called. *)
Definition executor_enter : M (option (Promise unit)) :=
  listening <- read listeningForChannelOpenings ;;
  if negb listening then
    p <- start_call client_listenForChannelOpening ;;
    ret (Some p)
  else ret None.

(** The executor from the point where the awaited call has settled: the
    guard is raised, then the handshake information is fetched and
    emitted. *)
Definition executor_resume (awaited : option (Promise unit)) : M unit :=
  match awaited with
  | Some p => await_promise p ;; modify (set_listening true)
  | None => ret tt
  end ;;
  info <- await client_getHandshakeInfo ;;
  catch_log (events_emit P2P_LISTEN_FOR_CHANNEL_OPEN (Some info)) LWarn.

Definition connectNewPeer_enter : M (option (Promise unit)) :=
  log LConnectNewPeer ;;
  executor_enter.

Definition connectNewPeer : M unit :=
  new_Promise (awaited <- connectNewPeer_enter ;; executor_resume awaited).

(** *** Calls of [connectNewPeer] that overlap

    The executor suspends twice: at the [await] of
    [listenForChannelOpening] (line 81) and at the [await] of
    [getHandshakeInfo] (line 103).  When calls overlap, an executor runs
    from one suspension to the next and the other executors run in
    between. *)

(** An executor waiting at one of its two [await]s, with the promise it
    waits for. *)
Inductive Suspended : Type :=
| AwaitingListener (p : Promise unit)
| AwaitingHandshakeInfo (p : Promise HandshakeInfo).

(** A call of [connectNewPeer] up to the first suspension of its executor:
    with the guard down that is the [await] of line 81; with the guard up
    the executor goes straight to [getHandshakeInfo] and waits there. *)
Definition connectNewPeer_start (s : State) : Suspended * State :=
  let s0 := record_log LConnectNewPeer s in
  if negb (listeningForChannelOpenings s0) then
    let (p, s1) := client_listenForChannelOpening s0 in
    (AwaitingListener p, s1)
  else
    let (p, s1) := client_getHandshakeInfo s0 in
    (AwaitingHandshakeInfo p, s1).

(** The executor from a suspension whose promise has settled to its next
    suspension or to its end.  After the listener it raises the guard and
    calls [getHandshakeInfo]; after the handshake information it emits the
    event.  A rejection of the awaited promise ends the executor, and
    nobody observes it. *)
Definition executor_step (k : Suspended) (s : State)
  : option Suspended * State :=
  match k with
  | AwaitingListener p =>
      match result p with
      | Fulfilled _ =>
          let (q, s') := client_getHandshakeInfo (set_listening true s) in
          (Some (AwaitingHandshakeInfo q), s')
      | _ => (None, s)
      end
  | AwaitingHandshakeInfo p =>
      match result p with
      | Fulfilled info =>
          (None,
           snd (catch_log
                  (events_emit P2P_LISTEN_FOR_CHANNEL_OPEN (Some info))
                  LWarn s))
      | _ => (None, s)
      end
  end.

Definition connect : M unit :=
  log LConnect ;;
  modify (set_status CONNECTING) ;;
  await client_start ;;
  knownPeers <- await storage_get ;;
  (if 0 <? length knownPeers then
     log (LConnecting (length knownPeers)) ;;
     connectionPromises <-
       map_async (fun peer => listen (pubKey peer)) knownPeers ;;
     await_promise (Promise_all connectionPromises) ;;
     ret tt
   else
     dapp <- read isDapp ;;
     if dapp then connectNewPeer else ret tt) ;;
  Transport_connect.

(** What is left of [connect] once the promise of [connectNewPeer] it
    awaits has been resolved by the callback. *)
Definition connect_resume : M unit := Transport_connect.

Definition reconnect : M unit :=
  dapp <- read isDapp ;;
  if dapp then connectNewPeer else ret tt.

Definition getPeers : M (list Peer) :=
  log LGetPeers ;;
  peers <- await storage_get ;;
  log (LConnectedPeers (length peers)) ;;
  ret peers.

Definition addPeer (newPeer : Peer) : M unit :=
  log (LAddPeer newPeer) ;;
  peers <- await storage_get ;;
  if negb (known (pubKey newPeer) peers) then
    let peers' :=
      peers ++ [mkPeer (name newPeer) (pubKey newPeer) (relayServer newPeer)] in
    await (storage_set peers') ;;
    log (LPeerAdded (length peers')) ;;
    await (client_openChannel (pubKey newPeer) (relayServer newPeer)) ;;
    await (listen (pubKey newPeer))
  else ret tt.

Definition removePeer (peerToBeRemoved : Peer) : M unit :=
  log (LRemovePeer peerToBeRemoved) ;;
  peers <- await storage_get ;;
  let peers' :=
    filter (fun peer => negb (String.eqb (pubKey peer) (pubKey peerToBeRemoved))) peers in
  await (storage_set peers') ;;
  await (client_unsubscribeFromEncryptedMessage (pubKey peerToBeRemoved)) ;;
  log (LPeersLeft (length peers')).

Definition removeAllPeers : M unit :=
  log LRemoveAllPeers ;;
  await (storage_set []) ;;
  await client_unsubscribeFromEncryptedMessages.

(** [if (recipient)]: an omitted recipient and the empty string are both
    falsy. *)
Definition truthy (recipient : option string) : bool :=
  match recipient with
  | Some r => negb (String.eqb r "")
  | None => false
  end.

Definition broadcast (message : string) (knownPeers : list Peer) : M unit :=
  promises <-
    map_async (fun peer => client_sendMessage (pubKey peer) message)
              knownPeers ;;
  results <- await_promise (Promise_all promises) ;;
  ret (nth 0 results tt).

Definition send (message : string) (recipient : option string) : M unit :=
  knownPeers <- await storage_get ;;
  match recipient with
  | Some r =>
      if truthy recipient then
        if negb (known r knownPeers) then throw (Error "Recipient unknown")
        else await (client_sendMessage r message)
      else broadcast message knownPeers
  | None => broadcast message knownPeers
  end.

End Transport.

(** ** The message vocabulary

    The enumerations of the message schema, with the strings they stand
    for on the wire. *)

Inductive PermissionScope : Type :=
| READ_ADDRESS
| SIGN
| OPERATION_REQUEST
| THRESHOLD.

Definition PermissionScope_value (scope : PermissionScope) : string :=
  match scope with
  | READ_ADDRESS => "read_address"
  | SIGN => "sign"
  | OPERATION_REQUEST => "operation_request"
  | THRESHOLD => "threshold"
  end.

Inductive MessageType : Type :=
| PermissionRequest
| SignPayloadRequest
| OperationRequest
| BroadcastRequest
| PermissionResponse
| SignPayloadResponse
| OperationResponse
| BroadcastResponse.

Definition MessageType_value (type : MessageType) : string :=
  match type with
  | PermissionRequest => "permission_request"
  | SignPayloadRequest => "sign_payload_request"
  | OperationRequest => "operation_request"
  | BroadcastRequest => "broadcast_request"
  | PermissionResponse => "permission_response"
  | SignPayloadResponse => "sign_payload_response"
  | OperationResponse => "operation_response"
  | BroadcastResponse => "broadcast_response"
  end.

Inductive NetworkType : Type :=
| MAINNET
| CUSTOM.

Definition NetworkType_value (type : NetworkType) : string :=
  match type with
  | MAINNET => "mainnet"
  | CUSTOM => "custom"
  end.

(** ** Vocabulary of the statements *)

(** The collaborator always fulfils call [c]. *)
Definition succeeds (env : Env) (c : Call) : Prop :=
  forall h, answer (reply env h c) = Succeeds.

(** The next read of the peer list succeeds. *)
Definition readable (env : Env) (s : State) : Prop :=
  answer (reply env (calls s) StorageGet) = Succeeds.

(** The instant at which a read started in [s] settles. *)
Definition read_done (env : Env) (s : State) : nat :=
  now s + latency (reply env (calls s) StorageGet).

(** The answers to the calls [cs] made one after the other from history
    [h]. *)
Fixpoint replies (env : Env) (h : list Call) (cs : list Call) : list Reply :=
  match cs with
  | [] => []
  | c :: cs' => reply env h c :: replies env (h ++ [c]) cs'
  end.

Definition outcome_of (r : Reply) : Outcome unit :=
  match answer r with
  | Succeeds => Fulfilled tt
  | Fails e => Rejected e
  | Hangs => Pending
  end.

Definition promise_of (t : nat) (r : Reply) : Promise unit :=
  mkPromise (outcome_of r) (t + latency r).

Definition record_calls (cs : list Call) (s : State) : State :=
  fold_left (fun s' c => record_call c s') cs s.

(** Number of records of the list that carry the key [k]. *)
Definition count_key (k : string) (peers : list Peer) : nat :=
  count_occ string_dec (map pubKey peers) k.

(** The invariant of section 3: at most one record per key. *)
Definition unique_keys (peers : list Peer) : Prop :=
  NoDup (map pubKey peers).

(** Number of calls among [cs] that satisfy [f]. *)
Definition count_calls (f : Call -> bool) (cs : list Call) : nat :=
  length (filter f cs).

Definition is_listenForChannelOpening (c : Call) : bool :=
  match c with ListenForChannelOpening => true | _ => false end.

(** *** Test doubles and sample states *)

Definition alice : Peer := mkPeer "Alice" "pkA" "relay-a".
Definition bob : Peer := mkPeer "Bob" "pkB" "relay-b".
Definition carol : Peer := mkPeer "Carol" "pkC" "relay-c".

(** A fresh transport over a store that holds [peers]. *)
Definition fresh (dapp : bool) (peers : list Peer) : State :=
  mkState dapp false NOT_CONNECTED peers [] [] 0 false.

(** Every call succeeds after one tick. *)
Definition all_fine : Env :=
  mkEnv (fun _ _ => mkReply Succeeds 1) (fun _ => "handshake-info").

(** Sends and listens for the key [pkB] are rejected after one tick, the
    other calls succeed after five. *)
Definition bob_unreachable : Env :=
  mkEnv (fun _ c =>
           match c with
           | SendMessage "pkB" _ | ListenForEncryptedMessage "pkB" =>
               mkReply (Fails (Error "relay down")) 1
           | _ => mkReply Succeeds 5
           end)
        (fun _ => "handshake-info").

(** As [bob_unreachable], and sends to [pkC] are rejected too, later. *)
Definition bob_and_carol_unreachable : Env :=
  mkEnv (fun _ c =>
           match c with
           | SendMessage "pkB" _ => mkReply (Fails (Error "relay down")) 1
           | SendMessage "pkC" _ => mkReply (Fails (Error "relay down")) 3
           | _ => mkReply Succeeds 5
           end)
        (fun _ => "handshake-info").

(** Writes to the storage are rejected. *)
Definition disk_full : Env :=
  mkEnv (fun _ c =>
           match c with
           | StorageSet _ => mkReply (Fails (Error "quota exceeded")) 1
           | _ => mkReply Succeeds 1
           end)
        (fun _ => "handshake-info").

(** *** The event loop over suspended executors *)

(** Whether the promise an executor waits for settles at all, and when. *)
Definition settles (k : Suspended) : bool :=
  match k with
  | AwaitingListener p =>
      match result p with Pending => false | _ => true end
  | AwaitingHandshakeInfo p =>
      match result p with Pending => false | _ => true end
  end.

Definition wakesAt (k : Suspended) : nat :=
  match k with
  | AwaitingListener p => settlesAt p
  | AwaitingHandshakeInfo p => settlesAt p
  end.

(** The executor that is resumed next, and the ones left waiting: the one
    whose promise settles first; among promises that settle at the same
    instant, the one that has been waiting longest. *)
Fixpoint next_settled (waiting : list Suspended)
  : option (Suspended * list Suspended) :=
  match waiting with
  | [] => None
  | k :: rest =>
      match next_settled rest with
      | Some (k', rest') =>
          if settles k && (wakesAt k <=? wakesAt k')
          then Some (k, rest) else Some (k', k :: rest')
      | None => if settles k then Some (k, rest) else None
      end
  end.

(** How many more times an executor can be resumed. *)
Definition steps_left (k : Suspended) : nat :=
  match k with
  | AwaitingListener _ => 2
  | AwaitingHandshakeInfo _ => 1
  end.

(** Resuming executors until none of the promises waited for settles: the
    clock moves to the instant the promise settles, the executor runs to
    its next suspension and queues up behind the others. *)
Fixpoint event_loop (env : Env) (fuel : nat) (waiting : list Suspended)
    (s : State) : list Suspended * State :=
  match fuel with
  | 0 => (waiting, s)
  | S fuel' =>
      match next_settled waiting with
      | None => (waiting, s)
      | Some (k, rest) =>
          match executor_step env k (advance_to (wakesAt k) s) with
          | (Some k', s') => event_loop env fuel' (rest ++ [k']) s'
          | (None, s') => event_loop env fuel' rest s'
          end
      end
  end.

Definition run_executors (env : Env) (waiting : list Suspended) (s : State)
  : list Suspended * State :=
  event_loop env (list_sum (map steps_left waiting)) waiting s.

(** Two calls of [connectNewPeer] made back to back, as in
    [t.reconnect(); t.reconnect()] on a dApp: the second call is made
    while the executor of the first is suspended at its first [await];
    from there the two executors take turns.  The result is the executors
    that wait for ever and the final state. *)
Definition connectNewPeer_back_to_back (env : Env) (s : State)
  : list Suspended * State :=
  let (first, s1) := connectNewPeer_start env s in
  let (second, s2) := connectNewPeer_start env s1 in
  run_executors env [first; second] s2.

(** A call that was rejected with [e] after making the calls [issued],
    the stored list being what it was. *)
Definition rejected_without_effect (run : Outcome unit * State) (s : State)
    (e : exn) (issued : list Call) : Prop :=
  fst run = Rejected e /\
  stored (snd run) = stored s /\
  calls (snd run) = calls s ++ issued.

Definition is_openChannel (c : Call) : bool :=
  match c with OpenChannel _ _ => true | _ => false end.

Definition is_sendMessage (c : Call) : bool :=
  match c with SendMessage _ _ => true | _ => false end.

Definition is_listenFor (key : string) (c : Call) : bool :=
  match c with
  | ListenForEncryptedMessage pk => String.eqb pk key
  | _ => false
  end.

(** The calls picked by [refused] are rejected, every other call succeeds;
    all after one tick. *)
Definition refusing (refused : Call -> bool) : Env :=
  mkEnv (fun _ c =>
           if refused c then mkReply (Fails (Error "refused")) 1
           else mkReply Succeeds 1)
        (fun _ => "handshake-info").

Definition is_start (c : Call) : bool :=
  match c with Start => true | _ => false end.

Definition is_storageGet (c : Call) : bool :=
  match c with StorageGet => true | _ => false end.

Definition is_storageSet (c : Call) : bool :=
  match c with StorageSet _ => true | _ => false end.

Definition is_listenForEncryptedMessage (c : Call) : bool :=
  match c with ListenForEncryptedMessage _ => true | _ => false end.

(** *** Proof steps shared by the statements below *)

(** Runs the model on a state given by its fields: the definitions of the
    model and the field accesses are unfolded, while lists, counts and
    clock arithmetic stay as they are written. *)
Ltac unfold_model :=
  lazy beta iota zeta delta
    [connectNewPeer connectNewPeer_enter executor_enter executor_resume
     new_Promise channelOpeningCallback addPeer removePeer removeAllPeers
     listen
     bind ret throw modify read log await await_promise start_call catch_log
     storage_get storage_set client_start client_listenForChannelOpening
     client_getHandshakeInfo client_openChannel client_sendMessage
     client_listenForEncryptedMessage client_unsubscribeFromEncryptedMessage
     client_unsubscribeFromEncryptedMessages events_emit plain collaborator
     set_listening set_status set_stored record_call record_log advance_to
     set_resolved isDapp listeningForChannelOpenings _isConnected stored
     calls logged now pairingResolved result settlesAt fst snd
     readable read_done].

Ltac run := unfold_model; repeat (progress cbn [negb]; unfold_model).

(** Case analysis on the next answer of the collaborators. *)
Ltac next_answer :=
  match goal with
  | |- context [answer ?r] => destruct (answer r) eqn:?; run
  end.

(** ** Basic facts *)

Lemma known_spec (k : string) (peers : list Peer) :
  known k peers = true <-> In k (map pubKey peers).
Proof.
  unfold known. rewrite existsb_exists. split.
  - intros [p [Hin Heq]]. apply String.eqb_eq in Heq. subst k.
    now apply in_map.
  - intros Hin. apply in_map_iff in Hin. destruct Hin as [p [Heq Hin]].
    exists p. split; [assumption|]. now apply String.eqb_eq.
Qed.

Lemma known_false (k : string) (peers : list Peer) :
  known k peers = false <-> ~ In k (map pubKey peers).
Proof.
  rewrite <- known_spec. destruct (known k peers); split; congruence.
Qed.

Lemma count_key_app (k : string) (l1 l2 : list Peer) :
  count_key k (l1 ++ l2) = count_key k l1 + count_key k l2.
Proof. unfold count_key. now rewrite map_app, count_occ_app. Qed.

Lemma count_key_unknown (k : string) (peers : list Peer) :
  known k peers = false -> count_key k peers = 0.
Proof.
  intros H. apply known_false in H. unfold count_key.
  now apply count_occ_not_In.
Qed.

Lemma count_key_known (k : string) (peers : list Peer) :
  known k peers = true -> 1 <= count_key k peers.
Proof.
  intros H. apply known_spec in H. unfold count_key.
  apply (count_occ_In string_dec) in H. lia.
Qed.

Lemma filter_absent (k : string) (peers : list Peer) :
  ~ In k (map pubKey peers) ->
  filter (fun peer => negb (String.eqb (pubKey peer) k)) peers = peers.
Proof.
  induction peers as [|p peers IH]; simpl; intros H; [reflexivity|].
  destruct (String.eqb_spec (pubKey p) k) as [Heq|Hne]; simpl.
  - exfalso. apply H. now left.
  - f_equal. apply IH. intros Hin. apply H. now right.
Qed.

Lemma calls_record_calls (cs : list Call) (s : State) :
  calls (record_calls cs s) = calls s ++ cs.
Proof.
  revert s. induction cs as [|c cs IH]; intros s; simpl.
  - now rewrite app_nil_r.
  - unfold record_calls in *. simpl. rewrite IH. simpl.
    now rewrite <- app_assoc.
Qed.

Lemma frame_record_calls (cs : list Call) (s : State) :
  isDapp (record_calls cs s) = isDapp s /\
  listeningForChannelOpenings (record_calls cs s)
    = listeningForChannelOpenings s /\
  _isConnected (record_calls cs s) = _isConnected s /\
  stored (record_calls cs s) = stored s /\
  logged (record_calls cs s) = logged s /\
  now (record_calls cs s) = now s /\
  pairingResolved (record_calls cs s) = pairingResolved s.
Proof.
  revert s. induction cs as [|c cs IH]; intros s.
  - repeat split.
  - unfold record_calls in *. simpl.
    destruct (IH (record_call c s)) as (H1 & H2 & H3 & H4 & H5 & H6 & H7).
    repeat split; simpl in *; congruence.
Qed.

Lemma advance_to_now (s : State) : advance_to (now s) s = s.
Proof. destruct s. unfold advance_to. simpl. now rewrite Nat.max_id. Qed.

(** Starting one plain call per element records the calls in order and
    yields the promises of the answers. *)
Lemma map_async_plain (env : Env) (X : Type) (g : X -> Call) (l : list X)
    (s : State) :
  map_async (fun x => plain env (g x)) l s
  = (Fulfilled (map (promise_of (now s)) (replies env (calls s) (map g l))),
     record_calls (map g l) s).
Proof.
  revert s. induction l as [|x l IH]; intros s; [reflexivity|].
  simpl. unfold bind at 1. unfold start_call at 1.
  unfold plain at 1. unfold collaborator.
  assert (Hstep : forall o : Outcome unit,
    bind (map_async (fun x0 => plain env (g x0)) l)
         (fun ps => ret (mkPromise o (now s + latency (reply env (calls s) (g x))) :: ps))
         (record_call (g x) s)
    = (Fulfilled (mkPromise o (now s + latency (reply env (calls s) (g x)))
                  :: map (promise_of (now s))
                       (replies env (calls s ++ [g x]) (map g l))),
       record_calls (map g l) (record_call (g x) s))).
  { intros o. unfold bind. rewrite IH. reflexivity. }
  unfold promise_of at 1. unfold outcome_of.
  destruct (answer (reply env (calls s) (g x))); apply Hstep.
Qed.

(** *** [Promise.all] over the promises of collaborator answers *)

Lemma first_rejection_none (t : nat) (rs : list Reply) :
  first_rejection (map (promise_of t) rs) = None <->
  (forall r e, In r rs -> answer r <> Fails e).
Proof.
  induction rs as [|r rs IH]; simpl.
  - split; [intros _ r e []|reflexivity].
  - unfold outcome_of. destruct (answer r) as [|e|] eqn:Hr.
    + rewrite IH. split.
      * intros H r' e' [<-|Hin]; [congruence|now apply H].
      * intros H r' e' Hin. apply H. now right.
    + split.
      * destruct (first_rejection (map (promise_of t) rs)) as [[t' e']|];
          [destruct (t + latency r <=? t')|]; discriminate.
      * intros H. now specialize (H r e (or_introl eq_refl)).
    + rewrite IH. split.
      * intros H r' e' [<-|Hin]; [congruence|now apply H].
      * intros H r' e' Hin. apply H. now right.
Qed.

Lemma first_rejection_some (t : nat) (rs : list Reply) (t' : nat) (e : exn) :
  first_rejection (map (promise_of t) rs) = Some (t', e) ->
  exists r, In r rs /\ answer r = Fails e /\ t' = t + latency r /\
            forall r' e', In r' rs -> answer r' = Fails e' ->
                          latency r <= latency r'.
Proof.
  revert t' e. induction rs as [|r rs IH]; simpl; intros t' e H.
  - discriminate.
  - unfold outcome_of in H. destruct (answer r) as [|e0|] eqn:Hr.
    + destruct (IH _ _ H) as (r1 & Hin1 & Hf1 & Ht1 & Hmin1).
      exists r1. repeat split; auto.
      intros r' e' [<-|Hin'] Hf; [congruence|]. now apply (Hmin1 r' e').
    + destruct (first_rejection (map (promise_of t) rs)) as [[t1 e1]|] eqn:Hf.
      * destruct (IH _ _ eq_refl) as (r1 & Hin1 & Hf1 & Ht1 & Hmin1).
        destruct (Nat.leb_spec (t + latency r) t1) as [Hle|Hgt].
        -- inversion H; subst. exists r. repeat split; auto.
           intros r' e' [<-|Hin'] Hf'; [lia|].
           specialize (Hmin1 r' e' Hin' Hf'). lia.
        -- inversion H; subst. exists r1. repeat split; auto.
           intros r' e' [<-|Hin'] Hf'; [lia|]. now apply (Hmin1 r' e').
      * inversion H; subst. exists r. repeat split; auto.
        intros r' e' [<-|Hin'] Hf'; [lia|].
        exfalso. exact (proj1 (first_rejection_none t rs) Hf r' e' Hin' Hf').
    + destruct (IH _ _ H) as (r1 & Hin1 & Hf1 & Ht1 & Hmin1).
      exists r1. repeat split; auto.
      intros r' e' [<-|Hin'] Hf; [congruence|]. now apply (Hmin1 r' e').
Qed.

Lemma all_fulfilled_ok (t : nat) (rs : list Reply) :
  (forall r, In r rs -> answer r = Succeeds) ->
  exists vs t', all_fulfilled (map (promise_of t) rs) = Some (vs, t') /\
                forall r, In r rs -> t + latency r <= t'.
Proof.
  induction rs as [|r rs IH]; simpl; intros H.
  - exists [], 0. split; [reflexivity|intros r []].
  - destruct IH as (vs & t' & Hall & Hmax); [intros; apply H; now right|].
    unfold outcome_of. rewrite (H r (or_introl eq_refl)), Hall.
    exists (tt :: vs), (Nat.max (t + latency r) t'). split; [reflexivity|].
    intros r' [<-|Hin]; [lia|]. specialize (Hmax r' Hin). lia.
Qed.

(** Awaiting [Promise.all] of the promises of the answers [rs], all
    started at instant [t]. *)
Lemma await_Promise_all (t : nat) (rs : list Reply) (s : State) :
  exists o t',
    await_promise (Promise_all (map (promise_of t) rs)) s
      = (o, advance_to t' s) /\
    ((forall r, In r rs -> answer r = Succeeds) ->
       (exists vs, o = Fulfilled vs) /\
       forall r, In r rs -> t + latency r <= t') /\
    (forall e, o = Rejected e ->
       exists r, In r rs /\ answer r = Fails e /\ t' = t + latency r /\
                 forall r' e', In r' rs -> answer r' = Fails e' ->
                               latency r <= latency r') /\
    ((exists r e, In r rs /\ answer r = Fails e) -> exists e, o = Rejected e).
Proof.
  unfold Promise_all, await_promise.
  destruct (first_rejection (map (promise_of t) rs)) as [[t1 e1]|] eqn:Hf.
  - exists (Rejected e1), t1. simpl. split; [reflexivity|].
    apply first_rejection_some in Hf.
    destruct Hf as (r & Hin & Hfail & Ht & Hmin).
    split; [|split].
    + intros Hall. rewrite (Hall r Hin) in Hfail. discriminate.
    + intros e He. inversion He; subst e. exists r. auto.
    + intros _. now exists e1.
  - pose proof (proj1 (first_rejection_none t rs) Hf) as Hnone.
    assert (Hno : (exists r e, In r rs /\ answer r = Fails e) -> False).
    { intros (r & e & Hin & Hfail). exact (Hnone r e Hin Hfail). }
    destruct (all_fulfilled (map (promise_of t) rs)) as [[vs t']|] eqn:Hall.
    + exists (Fulfilled vs), t'. simpl. split; [reflexivity|].
      split; [|split].
      * intros Hok. split; [now exists vs|].
        destruct (all_fulfilled_ok t rs Hok) as (vs' & t'' & Hvs & Hmax).
        rewrite Hall in Hvs. inversion Hvs; subst. assumption.
      * discriminate.
      * intros Hex. destruct (Hno Hex).
    + exists Pending, (now s). simpl. rewrite advance_to_now.
      split; [reflexivity|]. split; [|split].
      * intros Hok.
        destruct (all_fulfilled_ok t rs Hok) as (vs' & t'' & Hvs & _).
        rewrite Hall in Hvs. discriminate.
      * discriminate.
      * intros Hex. destruct (Hno Hex).
Qed.

(** A read of the peer list that succeeds. *)
Lemma await_storage_get (env : Env) (s : State) :
  readable env s ->
  await (storage_get env) s
  = (Fulfilled (stored s), advance_to (read_done env s) (record_call StorageGet s)).
Proof.
  unfold readable, read_done, await, storage_get, collaborator, await_promise.
  intros H. rewrite H. reflexivity.
Qed.

Lemma now_after_read (env : Env) (s : State) :
  now (advance_to (read_done env s) (record_call StorageGet s))
  = read_done env s.
Proof. unfold read_done. simpl. lia. Qed.

(** Awaiting one plain call: its outcome is the answer of the
    collaborator, and only the record of calls and the clock move. *)
Lemma await_plain (env : Env) (c : Call) (s : State) :
  let run := await (plain env c) s in
  fst run = outcome_of (reply env (calls s) c) /\
  calls (snd run) = calls s ++ [c] /\
  stored (snd run) = stored s /\
  logged (snd run) = logged s /\
  _isConnected (snd run) = _isConnected s /\
  listeningForChannelOpenings (snd run) = listeningForChannelOpenings s.
Proof.
  unfold await, plain, collaborator, await_promise, outcome_of.
  destruct (answer (reply env (calls s) c)); simpl; repeat split.
Qed.

(** ** Sending *)

(** C1, as amended.  A broadcast (recipient omitted) starts exactly one
    [sendMessage] per peer of the registry, in registry order, and leaves
    the registry alone.  When every send succeeds the call is fulfilled,
    once the slowest send has settled.  When some send fails the call is
    rejected as soon as the earliest failing send settles, with the reason
    of that single send: no aggregate of the failed recipients is built.
    The sends to the other peers have been started all the same. *)
Theorem send_broadcast (env : Env) (message : string) (s : State) :
  readable env s ->
  let sends := map (fun peer => SendMessage (pubKey peer) message) (stored s) in
  let rs := replies env (calls s ++ [StorageGet]) sends in
  let o := fst (send env message None s) in
  let s' := snd (send env message None s) in
  calls s' = calls s ++ StorageGet :: sends /\
  stored s' = stored s /\
  ((forall r, In r rs -> answer r = Succeeds) ->
     o = Fulfilled tt /\
     forall r, In r rs -> read_done env s + latency r <= now s') /\
  ((exists r e, In r rs /\ answer r = Fails e) -> exists e, o = Rejected e) /\
  (forall e, o = Rejected e ->
     exists r, In r rs /\ answer r = Fails e /\
               now s' = read_done env s + latency r /\
               forall r' e', In r' rs -> answer r' = Fails e' ->
                             latency r <= latency r').
Proof.
  intros Hread sends rs o s'. subst o s'.
  unfold send, bind. rewrite (await_storage_get Hread).
  unfold broadcast, bind.
  rewrite (map_async_plain env (fun peer => SendMessage (pubKey peer) message)).
  rewrite now_after_read.
  set (s1 := record_calls _ _).
  assert (Hcalls : calls s1 = calls s ++ StorageGet :: sends).
  { unfold s1. rewrite calls_record_calls. simpl.
    now rewrite <- app_assoc. }
  assert (Hstored : stored s1 = stored s).
  { unfold s1. now destruct (frame_record_calls
      (map (fun peer => SendMessage (pubKey peer) message) (stored s))
      (advance_to (read_done env s) (record_call StorageGet s)))
      as (_ & _ & _ & -> & _). }
  assert (Hnow : now s1 = read_done env s).
  { unfold s1. destruct (frame_record_calls
      (map (fun peer => SendMessage (pubKey peer) message) (stored s))
      (advance_to (read_done env s) (record_call StorageGet s)))
      as (_ & _ & _ & _ & _ & -> & _). apply now_after_read. }
  simpl calls. fold sends. fold rs.
  destruct (await_Promise_all (read_done env s) rs s1)
    as (o & t' & Hrun & Hok & Hrej & Hsome).
  rewrite Hrun.
  destruct o as [vs|e|]; simpl.
  - split; [assumption|]. split; [assumption|]. split; [|split].
    + intros Hall. split; [now destruct (nth 0 vs tt)|].
      intros r Hin. destruct (Hok Hall) as [_ Hmax].
      specialize (Hmax r Hin). lia.
    + intros Hex. destruct (Hsome Hex) as [e He]. discriminate.
    + discriminate.
  - split; [assumption|]. split; [assumption|]. split; [|split].
    + intros Hall. destruct (Hok Hall) as [[vs Hvs] _]. discriminate.
    + intros _. now exists e.
    + intros e0 He0. inversion He0; subst e0.
      destruct (Hrej e eq_refl) as (r & Hin & Hf & Ht & Hmin).
      exists r. split; [assumption|]. split; [assumption|].
      split; [|assumption]. rewrite Hnow, Ht. lia.
  - split; [assumption|]. split; [assumption|]. split; [|split].
    + intros Hall. destruct (Hok Hall) as [[vs Hvs] _]. discriminate.
    + intros Hex. destruct (Hsome Hex) as [e He]. discriminate.
    + discriminate.
Qed.

(** C1, witness: Alice, Bob and Carol are each sent the payload once. *)
Lemma send_broadcast_witness :
  let s := fresh true [alice; bob; carol] in
  readable bob_unreachable s /\
  calls (snd (send bob_unreachable "ping" None s))
  = [StorageGet; SendMessage "pkA" "ping"; SendMessage "pkB" "ping";
     SendMessage "pkC" "ping"].
Proof.
  assert (H : readable bob_unreachable (fresh true [alice; bob; carol]))
    by reflexivity.
  split; [exact H|].
  exact (proj1 (@send_broadcast bob_unreachable "ping"
                  (fresh true [alice; bob; carol]) H)).
Defined.

(** C1, counterexample.  The registry holds Alice, Bob and Carol and only
    the send to Bob fails, one tick after the read of the registry (five
    ticks), while the other sends take five ticks.  The claim has the call
    complete once all three sends have settled, with an aggregate naming
    exactly Bob.  The call is over at instant 6, before the sends to Alice
    and Carol settle at instant 10, and it is rejected with the reason of
    the send to Bob; when the send to Carol fails too, later, the call is
    rejected with the same value, so the value does not tell the failed
    recipients. *)
Lemma send_broadcast_counterexample :
  let s := fresh true [alice; bob; carol] in
  let sends := map (fun peer => SendMessage (pubKey peer) "ping") (stored s) in
  let run := send bob_unreachable "ping" None s in
  ~ (forall r, In r (replies bob_unreachable [StorageGet] sends) ->
               read_done bob_unreachable s + latency r <= now (snd run)) /\
  now (snd run) = 6 /\
  fst run = Rejected (Error "relay down") /\
  fst (send bob_and_carol_unreachable "ping" None s) = fst run.
Proof.
  cbv zeta. split; [|repeat split].
  intros H. specialize (H (mkReply Succeeds 5)).
  assert (Hin : In (mkReply Succeeds 5)
                   (replies bob_unreachable [StorageGet]
                      (map (fun peer => SendMessage (pubKey peer) "ping")
                           (stored (fresh true [alice; bob; carol])))))
    by (left; reflexivity).
  specialize (H Hin). vm_compute in H. lia.
Qed.

(** C3.  A recipient identity is the key of a peer, which is never the
    empty string: section 3 of the spec allows the empty string for the
    name and the relay address of a peer only.  For every such recipient:
    when no peer of the registry carries it, the call is rejected with
    [Recipient unknown] after the read of the registry and nothing else (no
    client call, no change of the registry or of the transport); when a
    peer carries it, exactly one [sendMessage] to that recipient follows
    the read and its outcome is the outcome of the call. *)
Theorem send_unicast (env : Env) (message r : string) (s : State) :
  r <> "" ->
  readable env s ->
  let s1 := advance_to (read_done env s) (record_call StorageGet s) in
  let run := send env message (Some r) s in
  (~ In r (map pubKey (stored s)) ->
     run = (Rejected (Error "Recipient unknown"), s1) /\
     calls s1 = calls s ++ [StorageGet]) /\
  (In r (map pubKey (stored s)) ->
     fst run
     = outcome_of (reply env (calls s ++ [StorageGet]) (SendMessage r message)) /\
     calls (snd run) = calls s ++ [StorageGet; SendMessage r message] /\
     stored (snd run) = stored s).
Proof.
  intros Hr Hread s1 run. subst run.
  assert (Htruthy : truthy (Some r) = true).
  { simpl. destruct (String.eqb_spec r ""); [contradiction|reflexivity]. }
  unfold send, bind. rewrite (await_storage_get Hread). rewrite Htruthy.
  fold s1. simpl stored. split.
  - intros Habsent. apply known_false in Habsent. rewrite Habsent.
    simpl. split; reflexivity.
  - intros Hpresent. apply known_spec in Hpresent. rewrite Hpresent.
    cbv beta iota delta [negb]. unfold client_sendMessage.
    destruct (await_plain env (SendMessage r message) s1)
      as (Ho & Hcalls & Hstored & _).
    rewrite Ho, Hcalls, Hstored. simpl. rewrite <- app_assoc.
    repeat split.
Qed.

(** C3, witness: Dave is unknown to a registry that holds Alice. *)
Lemma send_unicast_witness :
  send all_fine "ping" (Some "pkD") (fresh true [alice])
  = (Rejected (Error "Recipient unknown"),
     advance_to 1 (record_call StorageGet (fresh true [alice]))).
Proof.
  assert (Hr : "pkD" <> "") by discriminate.
  assert (Hread : readable all_fine (fresh true [alice])) by reflexivity.
  assert (Habsent : ~ In "pkD" (map pubKey (stored (fresh true [alice])))).
  { simpl. intros [H|[]]. discriminate. }
  exact (proj1 (proj1 (@send_unicast all_fine "ping" "pkD"
                         (fresh true [alice]) Hr Hread) Habsent)).
Defined.

(** ** Connecting *)

(** The part of [connect] that every branch runs first, when the client
    starts and the registry can be read. *)
Lemma connect_prefix (env : Env) (s : State) (k : list Peer -> M unit) :
  answer (reply env (calls s) Start) = Succeeds ->
  answer (reply env (calls s ++ [Start]) StorageGet) = Succeeds ->
  (log LConnect ;;
   modify (set_status CONNECTING) ;;
   await (client_start env) ;;
   knownPeers <- await (storage_get env) ;;
   k knownPeers) s
  = k (stored s)
      (advance_to
         (now s + latency (reply env (calls s) Start)
          + latency (reply env (calls s ++ [Start]) StorageGet))
         (record_call StorageGet
            (record_call Start
               (set_status CONNECTING (record_log LConnect s))))).
Proof.
  destruct s as [dapp listening status peers history lines clock resolved].
  run. intros Hstart Hread. rewrite Hstart. run. rewrite Hread. run.
  f_equal. f_equal. lia.
Qed.

(** C2, as amended.  With a non-empty registry, a client that starts and
    a registry that can be read, [connect] starts one listen setup per
    known peer, in registry order.  When every setup succeeds the call is
    fulfilled and the state is [CONNECTED].  When a setup fails the call
    is rejected with the reason of a failed setup and the state stays
    [CONNECTING]: the failure is not caught. *)
Theorem connect_known_peers (env : Env) (s : State) :
  stored s <> [] ->
  answer (reply env (calls s) Start) = Succeeds ->
  answer (reply env (calls s ++ [Start]) StorageGet) = Succeeds ->
  let listens :=
    map (fun peer => ListenForEncryptedMessage (pubKey peer)) (stored s) in
  let rs := replies env (calls s ++ [Start; StorageGet]) listens in
  let o := fst (connect env s) in
  let s' := snd (connect env s) in
  calls s' = calls s ++ Start :: StorageGet :: listens /\
  ((forall r, In r rs -> answer r = Succeeds) ->
     o = Fulfilled tt /\ _isConnected s' = CONNECTED) /\
  ((exists r e, In r rs /\ answer r = Fails e) ->
     _isConnected s' = CONNECTING /\
     exists e r, o = Rejected e /\ In r rs /\ answer r = Fails e).
Proof.
  intros Hne Hstart Hread listens rs o s'. subst o s'.
  destruct (connect env s) as [o s'] eqn:Hc. simpl fst. simpl snd.
  unfold connect in Hc. rewrite (@connect_prefix env s _ Hstart Hread) in Hc.
  assert (Hlen : (0 <? length (stored s)) = true).
  { destruct (stored s); [contradiction|reflexivity]. }
  rewrite Hlen in Hc. unfold bind, log, modify, listen in Hc.
  unfold client_listenForEncryptedMessage in Hc.
  rewrite (map_async_plain env
             (fun peer => ListenForEncryptedMessage (pubKey peer))) in Hc.
  set (s0 := record_log _ _) in Hc.
  set (s1 := record_calls _ s0) in Hc.
  assert (Hcalls1 : calls s1 = calls s ++ Start :: StorageGet :: listens).
  { unfold s1. rewrite calls_record_calls. unfold s0. simpl.
    now rewrite <- !app_assoc. }
  assert (Hcalls0 : calls s0 = calls s ++ [Start; StorageGet]).
  { unfold s0. simpl. now rewrite <- app_assoc. }
  assert (Hstatus : _isConnected s1 = CONNECTING).
  { unfold s1.
    now destruct (frame_record_calls
      (map (fun peer => ListenForEncryptedMessage (pubKey peer)) (stored s))
      s0) as (_ & _ & -> & _). }
  rewrite Hcalls0 in Hc. fold listens in Hc. fold rs in Hc.
  destruct (await_Promise_all (now s0) rs s1)
    as (o1 & t' & Hrun & Hok & Hrej & Hsome).
  rewrite Hrun in Hc.
  destruct o1 as [vs|e|]; simpl in Hc; inversion Hc; subst o s'; clear Hc.
  - split; [assumption|]. split.
    + intros _. split; reflexivity.
    + intros Hex. destruct (Hsome Hex) as [e He]. discriminate.
  - split; [assumption|]. split.
    + intros Hall. destruct (Hok Hall) as [[vs Hvs] _]. discriminate.
    + intros _. split; [assumption|].
      destruct (Hrej e eq_refl) as (r & Hin & Hf & _).
      exists e, r. auto.
  - split; [assumption|]. split.
    + intros Hall. destruct (Hok Hall) as [[vs Hvs] _]. discriminate.
    + intros Hex. destruct (Hsome Hex) as [e He]. discriminate.
Qed.

(** C2, witness: both listen setups succeed and the transport is
    connected. *)
Lemma connect_known_peers_witness :
  let s := fresh false [alice; bob] in
  fst (connect all_fine s) = Fulfilled tt /\
  _isConnected (snd (connect all_fine s)) = CONNECTED.
Proof.
  assert (Hne : stored (fresh false [alice; bob]) <> []) by discriminate.
  assert (Hstart : answer (reply all_fine
                             (calls (fresh false [alice; bob])) Start)
                    = Succeeds)
    by reflexivity.
  assert (Hread : answer (reply all_fine
                            (calls (fresh false [alice; bob]) ++ [Start])
                            StorageGet) = Succeeds)
    by reflexivity.
  apply (proj1 (proj2 (@connect_known_peers all_fine
                         (fresh false [alice; bob]) Hne Hstart Hread))).
  intros r Hin. simpl in Hin. destruct Hin as [<-|[<-|[]]]; reflexivity.
Defined.

(** C2, counterexample.  Alice and Bob are known and the listen setup for
    Bob fails: [connect] is rejected with that failure and the state is
    left at [CONNECTING], where the claim has it reach [CONNECTED]. *)
Lemma connect_known_peers_counterexample :
  let s := fresh false [alice; bob] in
  stored s <> [] /\
  fst (connect bob_unreachable s) = Rejected (Error "relay down") /\
  _isConnected (snd (connect bob_unreachable s)) = CONNECTING /\
  calls (snd (connect bob_unreachable s))
  = [Start; StorageGet; ListenForEncryptedMessage "pkA";
     ListenForEncryptedMessage "pkB"].
Proof.
  cbv zeta. split; [discriminate|]. repeat split.
Qed.

(** What [connectNewPeer] leaves untouched. *)
Lemma connectNewPeer_frame (env : Env) (s : State) :
  fst (connectNewPeer env s) = Pending /\
  _isConnected (snd (connectNewPeer env s)) = _isConnected s /\
  isDapp (snd (connectNewPeer env s)) = isDapp s /\
  stored (snd (connectNewPeer env s)) = stored s.
Proof.
  destruct s as [dapp [|] status peers history lines clock resolved]; run;
    repeat next_answer; repeat split.
Qed.

(** With the guard up, [connectNewPeer] makes no call of
    [listenForChannelOpening]. *)
Lemma connectNewPeer_guarded (env : Env) (s : State) :
  listeningForChannelOpenings s = true ->
  count_calls is_listenForChannelOpening (calls (snd (connectNewPeer env s)))
  = count_calls is_listenForChannelOpening (calls s) /\
  listeningForChannelOpenings (snd (connectNewPeer env s)) = true.
Proof.
  destruct s as [dapp listening status peers history lines clock resolved].
  run. intros ->. run. unfold count_calls.
  repeat next_answer; rewrite ?filter_app, ?length_app; simpl; split;
    auto; lia.
Qed.

(** With the guard down and a collaborator that accepts the listener, a
    call of [connectNewPeer] that runs undisturbed installs the listener
    once and raises the guard. *)
Lemma connectNewPeer_installs_once (env : Env) (s : State) :
  listeningForChannelOpenings s = false ->
  succeeds env ListenForChannelOpening ->
  count_calls is_listenForChannelOpening (calls (snd (connectNewPeer env s)))
  = S (count_calls is_listenForChannelOpening (calls s)) /\
  listeningForChannelOpenings (snd (connectNewPeer env s)) = true.
Proof.
  destruct s as [dapp listening status peers history lines clock resolved].
  run. intros -> Hok. run. rewrite Hok. run. unfold count_calls.
  repeat next_answer; rewrite ?filter_app, ?length_app; simpl; split;
    auto; lia.
Qed.

(** [connectNewPeer] with the guard down and collaborators that accept
    the listener and hand out the handshake information. *)
Lemma connectNewPeer_fresh (env : Env) (s : State) :
  listeningForChannelOpenings s = false ->
  answer (reply env (calls s) ListenForChannelOpening) = Succeeds ->
  answer (reply env (calls s ++ [ListenForChannelOpening]) GetHandshakeInfo)
  = Succeeds ->
  let info := handshakeInfo env (calls s ++ [ListenForChannelOpening]) in
  let s' := snd (connectNewPeer env s) in
  fst (connectNewPeer env s) = Pending /\
  calls s' = calls s ++ [ListenForChannelOpening; GetHandshakeInfo;
                         Emit P2P_LISTEN_FOR_CHANNEL_OPEN (Some info)] /\
  listeningForChannelOpenings s' = true /\
  _isConnected s' = _isConnected s /\
  stored s' = stored s.
Proof.
  destruct s as [dapp listening status peers history lines clock resolved].
  run. intros -> Hlisten Hinfo. run. rewrite Hlisten. run.
  rewrite Hinfo. run.
  next_answer; rewrite <- ?app_assoc; simpl; repeat split.
Qed.

(** C7.  The registry is empty, the transport is a dApp that has not
    installed its listener yet, and the collaborators accept the calls.
    Up to the point where [connect] waits for a counterpart to pair, it
    calls [start] once, reads the registry, installs the channel-opening
    listener once, fetches the handshake information and emits exactly
    that value with [P2P_LISTEN_FOR_CHANNEL_OPEN]; it makes no
    [openChannel] and no per-peer listen call, the guard is raised and the
    state is [CONNECTING]. *)
Theorem connect_empty_registry_initiator (env : Env) (s : State) :
  isDapp s = true ->
  stored s = [] ->
  listeningForChannelOpenings s = false ->
  succeeds env Start ->
  succeeds env StorageGet ->
  succeeds env ListenForChannelOpening ->
  succeeds env GetHandshakeInfo ->
  let info :=
    handshakeInfo env (calls s ++ [Start; StorageGet; ListenForChannelOpening]) in
  let s' := snd (connect env s) in
  fst (connect env s) = Pending /\
  calls s' = calls s ++ [Start; StorageGet; ListenForChannelOpening;
                         GetHandshakeInfo;
                         Emit P2P_LISTEN_FOR_CHANNEL_OPEN (Some info)] /\
  count_calls is_listenForChannelOpening (calls s')
  = S (count_calls is_listenForChannelOpening (calls s)) /\
  listeningForChannelOpenings s' = true /\
  _isConnected s' = CONNECTING /\
  stored s' = [].
Proof.
  intros Hdapp Hempty Hflag Hstart Hread Hlisten Hinfo info s'.
  subst s'. destruct (connect env s) as [o s'] eqn:Hc.
  unfold connect in Hc.
  rewrite (@connect_prefix env s _ (Hstart _) (Hread _)) in Hc.
  rewrite Hempty in Hc. cbv beta iota delta [length Nat.ltb Nat.leb] in Hc.
  set (s2 := advance_to _ _) in Hc.
  assert (Hcalls2 : calls s2 = calls s ++ [Start; StorageGet]).
  { unfold s2. simpl. now rewrite <- app_assoc. }
  assert (Hflag2 : listeningForChannelOpenings s2 = false) by exact Hflag.
  assert (Hdapp2 : isDapp s2 = true) by exact Hdapp.
  assert (Hstatus2 : _isConnected s2 = CONNECTING) by reflexivity.
  assert (Hstored2 : stored s2 = []) by exact Hempty.
  clearbody s2.
  destruct (@connectNewPeer_fresh env s2 Hflag2 (Hlisten _) (Hinfo _))
    as (Ho & Hcalls & Hguard & Hstatus & Hstored).
  unfold bind at 1 in Hc. unfold bind at 1 in Hc. unfold read at 1 in Hc.
  rewrite Hdapp2 in Hc.
  destruct (connectNewPeer env s2) as [o3 s3]. simpl in Ho. subst o3.
  simpl in Hcalls, Hguard, Hstatus, Hstored.
  inversion Hc; subst o s'. simpl fst. simpl snd.
  rewrite Hcalls, Hguard, Hstatus, Hstored, Hcalls2, Hstatus2, Hstored2.
  rewrite <- !app_assoc. simpl. subst info.
  unfold count_calls. rewrite !filter_app, !length_app. simpl.
  repeat split; lia.
Qed.

(** C7, witness: a fresh dApp over an empty registry. *)
Lemma connect_empty_registry_initiator_witness :
  calls (snd (connect all_fine (fresh true [])))
  = [Start; StorageGet; ListenForChannelOpening; GetHandshakeInfo;
     Emit P2P_LISTEN_FOR_CHANNEL_OPEN (Some "handshake-info")].
Proof.
  assert (Hok : forall c, succeeds all_fine c) by (intros c h; reflexivity).
  exact (proj1 (proj2 (@connect_empty_registry_initiator all_fine
                         (fresh true []) eq_refl eq_refl eq_refl
                         (Hok _) (Hok _) (Hok _) (Hok _)))).
Defined.

(** The whole of [connect] on a dApp with an empty registry.  The call
    waits for a counterpart; when Bob's key arrives the callback stores
    the peer it learnt, sets up listening and resolves the promise, and
    the rest of [connect] marks the transport connected. *)
Example connect_then_pairing :
  let s1 := snd (connect all_fine (fresh true [])) in
  let s2 := snd (channelOpeningCallback all_fine "pkB" s1) in
  let s3 := snd (connect_resume s2) in
  fst (connect all_fine (fresh true [])) = Pending /\
  pairingResolved s1 = false /\
  pairingResolved s2 = true /\
  stored s2 = [mkPeer "" "pkB" ""] /\
  _isConnected s2 = CONNECTING /\
  _isConnected s3 = CONNECTED.
Proof. repeat split. Qed.

(** The channel-opening callback touches neither the state field nor the
    guard. *)
Lemma channelOpeningCallback_frame (env : Env) (pk : string) (s : State) :
  _isConnected (snd (channelOpeningCallback env pk s)) = _isConnected s /\
  listeningForChannelOpenings (snd (channelOpeningCallback env pk s))
  = listeningForChannelOpenings s.
Proof.
  destruct s as [dapp listening status peers history lines clock resolved].
  run. next_answer; try (split; reflexivity).
  destruct (known pk peers); run; repeat next_answer; split; reflexivity.
Qed.

(** C9.  [reconnect] leaves the state field as it finds it.  On a dApp it
    is a call of [connectNewPeer]; otherwise it does nothing at all.  The
    pairing that the call waits for, that is the channel-opening callback,
    leaves the state field alone as well. *)
Theorem reconnect_keeps_status (env : Env) (s : State) :
  _isConnected (snd (reconnect env s)) = _isConnected s /\
  reconnect env s
  = (if isDapp s then connectNewPeer env s else (Fulfilled tt, s)) /\
  forall pk,
    _isConnected (snd (channelOpeningCallback env pk (snd (reconnect env s))))
    = _isConnected s.
Proof.
  assert (Hkeep : _isConnected (snd (reconnect env s)) = _isConnected s).
  { unfold reconnect, bind, read. simpl. destruct (isDapp s).
    - apply connectNewPeer_frame.
    - reflexivity. }
  split; [assumption|]. split.
  - unfold reconnect, bind, read. simpl. now destruct (isDapp s).
  - intros pk.
    destruct (channelOpeningCallback_frame env pk (snd (reconnect env s)))
      as [-> _].
    assumption.
Qed.

(** ** The listener guard *)

(** Whatever the collaborators answer, two calls entered one after the
    other with the guard down both call [listenForChannelOpening]: the
    guard is only raised when the first call is resumed. *)
Lemma connectNewPeer_enter_twice (env : Env) (s : State) :
  listeningForChannelOpenings s = false ->
  let s' := snd ((first <- connectNewPeer_enter env ;;
                  connectNewPeer_enter env) s) in
  calls s' = calls s ++ [ListenForChannelOpening; ListenForChannelOpening] /\
  listeningForChannelOpenings s' = false.
Proof.
  destruct s as [dapp listening status peers history lines clock resolved].
  run. intros ->. run.
  repeat next_answer; rewrite <- ?app_assoc; split; reflexivity.
Qed.

(** An executor that is resumed calls [getHandshakeInfo] or [emit] and
    nothing else: it installs no listener. *)
Lemma executor_step_no_listener (env : Env) (k : Suspended) (s : State) :
  count_calls is_listenForChannelOpening (calls (snd (executor_step env k s)))
  = count_calls is_listenForChannelOpening (calls s).
Proof.
  destruct s as [dapp listening status peers history lines clock resolved].
  destruct k as [[[u|e|] t]|[[info|e|] t]]; try reflexivity.
  - unfold executor_step. run. next_answer;
      unfold count_calls; simpl; rewrite filter_app, length_app; simpl; lia.
  - unfold executor_step. run. next_answer;
      unfold count_calls; simpl; rewrite filter_app, length_app; simpl; lia.
Qed.

Lemma event_loop_no_listener (env : Env) (fuel : nat) :
  forall (waiting : list Suspended) (s : State),
    count_calls is_listenForChannelOpening
      (calls (snd (event_loop env fuel waiting s)))
    = count_calls is_listenForChannelOpening (calls s).
Proof.
  induction fuel as [|fuel IH]; intros waiting s; simpl; [reflexivity|].
  destruct (next_settled waiting) as [[k rest]|]; [|reflexivity].
  pose proof (executor_step_no_listener env k (advance_to (wakesAt k) s))
    as Hstep.
  destruct (executor_step env k (advance_to (wakesAt k) s)) as [[k'|] s'];
    simpl in Hstep; rewrite IH, Hstep; reflexivity.
Qed.

(** The executor that [next_settled] picks has a promise that settles,
    and the executors left waiting are the others. *)
Lemma next_settled_some (waiting : list Suspended) :
  forall k rest,
    next_settled waiting = Some (k, rest) ->
    settles k = true /\
    list_sum (map steps_left waiting)
    = steps_left k + list_sum (map steps_left rest).
Proof.
  induction waiting as [|k0 waiting IH]; simpl; intros k rest H;
    [discriminate|].
  destruct (next_settled waiting) as [[k' rest']|].
  - destruct (IH k' rest' eq_refl) as [Hsettles Hsum].
    destruct (settles k0 && (wakesAt k0 <=? wakesAt k')) eqn:Hfirst;
      inversion H; subst.
    + apply andb_true_iff in Hfirst. split; [tauto|reflexivity].
    + split; [assumption|]. simpl. lia.
  - destruct (settles k0) eqn:Hsettles; inversion H; subst.
    split; [assumption|reflexivity].
Qed.

Lemma executor_step_steps_left (env : Env) (k : Suspended) (s : State) :
  match fst (executor_step env k s) with
  | Some k' => S (steps_left k') = steps_left k
  | None => True
  end.
Proof.
  destruct k as [[[u|e|] t]|[[info|e|] t]]; simpl; try exact I.
  unfold client_getHandshakeInfo, collaborator.
  destruct (answer _); reflexivity.
Qed.

(** The event loop runs until no waiting executor has a promise that
    settles: what is left waiting waits for ever. *)
Lemma event_loop_quiescent (env : Env) (fuel : nat) :
  forall (waiting : list Suspended) (s : State),
    list_sum (map steps_left waiting) <= fuel ->
    next_settled (fst (event_loop env fuel waiting s)) = None.
Proof.
  induction fuel as [|fuel IH]; intros waiting s Hfuel; simpl.
  - destruct (next_settled waiting) as [[k rest]|] eqn:Hnext; [|reflexivity].
    destruct (next_settled_some _ Hnext) as [_ Hsum].
    destruct k; simpl in Hsum; lia.
  - destruct (next_settled waiting) as [[k rest]|] eqn:Hnext;
      [|simpl; assumption].
    destruct (next_settled_some _ Hnext) as [_ Hsum].
    pose proof (executor_step_steps_left env k (advance_to (wakesAt k) s))
      as Hless.
    destruct (executor_step env k (advance_to (wakesAt k) s)) as [[k'|] s'];
      simpl in Hless; apply IH.
    + rewrite map_app, list_sum_app. simpl. lia.
    + destruct k; simpl in Hsum; lia.
Qed.

(** One call run through the event loop ends in the state in which
    [connectNewPeer] ends: splitting the executor at its [await]s changes
    nothing for a call that runs alone. *)
Lemma connectNewPeer_alone (env : Env) (s : State) :
  snd (run_executors env [fst (connectNewPeer_start env s)]
         (snd (connectNewPeer_start env s)))
  = snd (connectNewPeer env s).
Proof.
  destruct s as [dapp [|] status peers history lines clock resolved];
    unfold run_executors, connectNewPeer_start; run.
  - next_answer; simpl; unfold executor_step; run;
      repeat next_answer; solve [reflexivity|congruence].
  - next_answer; simpl; unfold executor_step; run;
      repeat next_answer; simpl; unfold executor_step; run;
      repeat next_answer; solve [reflexivity|congruence].
Qed.

(** C5, the guard under back-to-back calls.  When [connectNewPeer] is
    called twice back to back with the guard down, the second call being
    made while the executor of the first waits for
    [listenForChannelOpening], both calls find the guard down and
    [listenForChannelOpening] is called twice, whatever the collaborators
    answer and in whatever order the promises settle: the guard is raised
    only when an executor is resumed, and a resumed executor installs
    nothing. *)
Theorem connectNewPeer_back_to_back_installs_twice (env : Env) (s : State) :
  listeningForChannelOpenings s = false ->
  count_calls is_listenForChannelOpening
    (calls (snd (connectNewPeer_back_to_back env s)))
  = S (S (count_calls is_listenForChannelOpening (calls s))).
Proof.
  intros Hguard. unfold connectNewPeer_back_to_back.
  destruct (connectNewPeer_start env s) as [first s1] eqn:Hfirst.
  destruct (connectNewPeer_start env s1) as [second s2] eqn:Hsecond.
  unfold run_executors. rewrite event_loop_no_listener.
  assert (Hstart : forall s0 k s0',
            listeningForChannelOpenings s0 = false ->
            connectNewPeer_start env s0 = (k, s0') ->
            listeningForChannelOpenings s0' = false /\
            calls s0' = calls s0 ++ [ListenForChannelOpening]).
  { intros s0 k s0' Hdown Hrun. unfold connectNewPeer_start in Hrun.
    simpl in Hrun. rewrite Hdown in Hrun. simpl in Hrun.
    unfold client_listenForChannelOpening, plain, collaborator in Hrun.
    simpl in Hrun.
    destruct (answer _); inversion Hrun; subst; simpl; rewrite Hdown;
      split; reflexivity. }
  destruct (Hstart _ _ _ Hguard Hfirst) as [Hguard1 Hcalls1].
  destruct (Hstart _ _ _ Hguard1 Hsecond) as [_ Hcalls2].
  rewrite Hcalls2, Hcalls1. unfold count_calls.
  rewrite !filter_app, !length_app. simpl. lia.
Qed.

(** C5, at the failing input: a fresh dApp and collaborators that accept
    every call.  Both listeners are installed before either executor is
    resumed; then each executor fetches the handshake information and
    each emits it. *)
Lemma connectNewPeer_back_to_back_installs_twice_witness :
  let s' := snd (connectNewPeer_back_to_back all_fine (fresh true [])) in
  listeningForChannelOpenings (fresh true []) = false /\
  count_calls is_listenForChannelOpening (calls s') = 2 /\
  calls s'
  = [ListenForChannelOpening; ListenForChannelOpening;
     GetHandshakeInfo; GetHandshakeInfo;
     Emit P2P_LISTEN_FOR_CHANNEL_OPEN (Some "handshake-info");
     Emit P2P_LISTEN_FOR_CHANNEL_OPEN (Some "handshake-info")] /\
  fst (connectNewPeer_back_to_back all_fine (fresh true [])) = [].
Proof.
  cbv zeta. split; [reflexivity|]. split; [|split; reflexivity].
  exact (@connectNewPeer_back_to_back_installs_twice all_fine (fresh true [])
           eq_refl).
Defined.

(** ** The registry *)

Lemma peer_eta (p : Peer) : mkPeer (name p) (pubKey p) (relayServer p) = p.
Proof. now destruct p. Qed.

(** [addPeer] for a key that the registry holds: the read and nothing
    else. *)
Lemma addPeer_known (env : Env) (p : Peer) (s : State) :
  readable env s ->
  known (pubKey p) (stored s) = true ->
  addPeer env p s
  = (Fulfilled tt,
     advance_to (read_done env s)
                (record_call StorageGet (record_log (LAddPeer p) s))).
Proof.
  destruct s as [dapp listening status peers history lines clock resolved].
  run. intros Hread Hknown. rewrite Hread. run. rewrite Hknown. reflexivity.
Qed.

(** [addPeer] for a new key when the write is accepted: the record is
    stored whatever becomes of the channel. *)
Lemma addPeer_unknown_stored (env : Env) (p : Peer) (s : State) :
  readable env s ->
  known (pubKey p) (stored s) = false ->
  answer (reply env (calls s ++ [StorageGet]) (StorageSet (stored s ++ [p])))
  = Succeeds ->
  stored (snd (addPeer env p s)) = stored s ++ [p].
Proof.
  destruct s as [dapp listening status peers history lines clock resolved].
  run. intros Hread Hknown Hwrite.
  rewrite Hread. run. rewrite Hknown. run. rewrite peer_eta, Hwrite. run.
  repeat next_answer; reflexivity.
Qed.

(** [addPeer] for a new key when the write is rejected. *)
Lemma addPeer_unknown_rejected (env : Env) (p : Peer) (s : State) (e : exn) :
  readable env s ->
  known (pubKey p) (stored s) = false ->
  answer (reply env (calls s ++ [StorageGet]) (StorageSet (stored s ++ [p])))
  = Fails e ->
  rejected_without_effect (addPeer env p s) s e
    [StorageGet; StorageSet (stored s ++ [p])].
Proof.
  unfold rejected_without_effect.
  destruct s as [dapp listening status peers history lines clock resolved].
  run. intros Hread Hknown Hwrite.
  rewrite Hread. run. rewrite Hknown. run. rewrite peer_eta, Hwrite. run.
  rewrite <- app_assoc. repeat split.
Qed.

(** The stored list after [addPeer] and after the channel-opening
    callback: the list as it was, or the list with one record for a key
    that was not there. *)
Lemma addPeer_stored_cases (env : Env) (p : Peer) (s : State) :
  stored (snd (addPeer env p s)) = stored s \/
  (known (pubKey p) (stored s) = false /\
   stored (snd (addPeer env p s)) = stored s ++ [p]).
Proof.
  destruct s as [dapp listening status peers history lines clock resolved].
  run. next_answer; auto.
  destruct (known (pubKey p) peers) eqn:Hknown; run; auto.
  rewrite peer_eta. repeat next_answer; auto.
Qed.

Lemma channelOpeningCallback_stored_cases (env : Env) (pk : string)
    (s : State) :
  stored (snd (channelOpeningCallback env pk s)) = stored s \/
  (known pk (stored s) = false /\
   stored (snd (channelOpeningCallback env pk s))
   = stored s ++ [mkPeer "" pk ""]).
Proof.
  destruct s as [dapp listening status peers history lines clock resolved].
  run. next_answer; auto.
  destruct (known pk peers) eqn:Hknown; run; repeat next_answer; auto.
Qed.

Lemma unique_keys_snoc (peers : list Peer) (p : Peer) :
  unique_keys peers ->
  known (pubKey p) peers = false ->
  unique_keys (peers ++ [p]).
Proof.
  unfold unique_keys. intros Hnodup Hknown. apply known_false in Hknown.
  rewrite map_app. simpl. apply NoDup_app; [assumption| |].
  - constructor; [intros []|constructor].
  - intros k Hin [<-|[]]. contradiction.
Qed.

Lemma unique_keys_filter (f : Peer -> bool) (peers : list Peer) :
  unique_keys peers -> unique_keys (filter f peers).
Proof.
  unfold unique_keys. induction peers as [|p peers IH]; simpl; intros H.
  - constructor.
  - inversion H as [|k l Hnotin Hrest]; subst.
    destruct (f p); simpl; [|now apply IH].
    constructor; [|now apply IH].
    intros Hin. apply Hnotin. apply in_map_iff in Hin.
    destruct Hin as (q & Hq & Hin). apply filter_In in Hin.
    rewrite <- Hq. apply in_map. tauto.
Qed.

(** Every operation that touches the registry keeps its keys unique. *)
Lemma unique_keys_preserved (env : Env) (s : State) :
  unique_keys (stored s) ->
  (forall p, unique_keys (stored (snd (addPeer env p s)))) /\
  (forall p, unique_keys (stored (snd (removePeer env p s)))) /\
  unique_keys (stored (snd (removeAllPeers env s))) /\
  (forall pk, unique_keys (stored (snd (channelOpeningCallback env pk s)))).
Proof.
  intros Huniq. split; [|split; [|split]].
  - intros p. destruct (addPeer_stored_cases env p s) as [->|[Hknown ->]];
      [assumption|now apply unique_keys_snoc].
  - intros p.
    assert (Hcases : stored (snd (removePeer env p s)) = stored s \/
                     stored (snd (removePeer env p s))
                     = filter (fun peer =>
                         negb (String.eqb (pubKey peer) (pubKey p)))
                         (stored s)).
    { destruct s as [dapp listening status peers history lines clock resolved].
      run. repeat next_answer; auto. }
    destruct Hcases as [->| ->]; [assumption|now apply unique_keys_filter].
  - assert (Hcases : stored (snd (removeAllPeers env s)) = stored s \/
                     stored (snd (removeAllPeers env s)) = []).
    { destruct s as [dapp listening status peers history lines clock resolved].
      run. repeat next_answer; auto. }
    destruct Hcases as [->| ->]; [assumption|constructor].
  - intros pk.
    destruct (channelOpeningCallback_stored_cases env pk s)
      as [->|[Hknown ->]]; [assumption|now apply unique_keys_snoc].
Qed.

Lemma unique_keys_count (k : string) (peers : list Peer) :
  unique_keys peers -> count_key k peers <= 1.
Proof.
  unfold unique_keys, count_key. intros H.
  now apply (proj1 (NoDup_count_occ string_dec (map pubKey peers))).
Qed.

(** C4.  With a storage that can be read and written, and at most one
    record for the key of [P] to begin with, adding [P] twice in a row
    leaves exactly one record with that key.  The first call inserts the
    record exactly when no stored record shares the key.  The second call
    is fulfilled after the read alone: no write, no [openChannel], no
    listen setup, no [peer added] log line, and the registry as the first
    call left it. *)
Theorem addPeer_twice (env : Env) (P : Peer) (s : State) :
  succeeds env StorageGet ->
  (forall peers, succeeds env (StorageSet peers)) ->
  count_key (pubKey P) (stored s) <= 1 ->
  let s1 := snd (addPeer env P s) in
  let s2 := snd (addPeer env P s1) in
  count_key (pubKey P) (stored s2) = 1 /\
  stored s1
  = (if known (pubKey P) (stored s) then stored s else stored s ++ [P]) /\
  addPeer env P s1
  = (Fulfilled tt,
     advance_to (read_done env s1)
                (record_call StorageGet (record_log (LAddPeer P) s1))) /\
  stored s2 = stored s1 /\
  calls s2 = calls s1 ++ [StorageGet] /\
  logged s2 = logged s1 ++ [LAddPeer P].
Proof.
  intros Hread Hwrite Hcount s1 s2.
  assert (Hstored1 : stored s1
            = if known (pubKey P) (stored s) then stored s
              else stored s ++ [P]).
  { unfold s1. destruct (known (pubKey P) (stored s)) eqn:Hknown.
    - now rewrite (@addPeer_known env P s (Hread _) Hknown).
    - apply addPeer_unknown_stored; auto. apply Hread. apply Hwrite. }
  assert (Hknown1 : known (pubKey P) (stored s1) = true).
  { rewrite Hstored1. destruct (known (pubKey P) (stored s)) eqn:Hknown;
      [assumption|].
    apply known_spec. rewrite map_app. apply in_or_app. right. now left. }
  assert (Hsecond : addPeer env P s1
            = (Fulfilled tt,
               advance_to (read_done env s1)
                 (record_call StorageGet (record_log (LAddPeer P) s1)))).
  { apply addPeer_known; [apply Hread|assumption]. }
  assert (Hstored2 : stored s2 = stored s1).
  { unfold s2. now rewrite Hsecond. }
  split; [|split; [assumption|split; [assumption|split; [assumption|]]]].
  - rewrite Hstored2, Hstored1.
    destruct (known (pubKey P) (stored s)) eqn:Hknown.
    + apply count_key_known in Hknown. lia.
    + rewrite count_key_app, (count_key_unknown _ _ Hknown).
      unfold count_key. simpl.
      destruct (string_dec (pubKey P) (pubKey P)); [reflexivity|congruence].
  - unfold s2. rewrite Hsecond. split; reflexivity.
Qed.

(** C4, witness: Alice is added twice to a registry that holds Bob. *)
Lemma addPeer_twice_witness :
  stored (snd (addPeer all_fine alice
                 (snd (addPeer all_fine alice (fresh true [bob])))))
  = [bob; alice].
Proof.
  assert (Hread : succeeds all_fine StorageGet) by (intros h; reflexivity).
  assert (Hwrite : forall peers, succeeds all_fine (StorageSet peers))
    by (intros peers h; reflexivity).
  assert (Hcount : count_key (pubKey alice) (stored (fresh true [bob])) <= 1)
    by (vm_compute; lia).
  destruct (@addPeer_twice all_fine alice (fresh true [bob]) Hread Hwrite Hcount)
    as (_ & H1 & _ & H2 & _).
  rewrite H2. exact H1.
Defined.

(** C8.  When the registry can be read and the write is accepted,
    [removePeer] writes the filtered list and then calls
    [unsubscribeFromEncryptedMessage] for the key it was given, whether or
    not a record carried that key.  When no record carries it, the list
    written is the list read, the stored list is unchanged, and the count
    logged on completion is the count of the list read: nothing was
    deleted. *)
Theorem removePeer_absent (env : Env) (p : Peer) (s : State) :
  readable env s ->
  let kept :=
    filter (fun peer => negb (String.eqb (pubKey peer) (pubKey p))) (stored s) in
  answer (reply env (calls s ++ [StorageGet]) (StorageSet kept)) = Succeeds ->
  let o := fst (removePeer env p s) in
  let s' := snd (removePeer env p s) in
  calls s' = calls s ++ [StorageGet; StorageSet kept;
                         UnsubscribeFromEncryptedMessage (pubKey p)] /\
  stored s' = kept /\
  (~ In (pubKey p) (map pubKey (stored s)) ->
     kept = stored s /\
     stored s' = stored s /\
     (o = Fulfilled tt ->
      logged s' = logged s ++ [LRemovePeer p; LPeersLeft (length (stored s))])).
Proof.
  destruct s as [dapp listening status peers history lines clock resolved].
  run. intros Hread Hwrite.
  assert (Hkept : ~ In (pubKey p) (map pubKey peers) ->
                  filter (fun peer => negb (String.eqb (pubKey peer) (pubKey p)))
                         peers = peers)
    by apply filter_absent.
  rewrite Hread. run. rewrite Hwrite. run.
  next_answer; rewrite <- ?app_assoc; simpl;
    (split; [reflexivity|]); (split; [reflexivity|]); intros Habsent;
    (split; [auto|]); (split; [auto|]); try discriminate.
  intros _. now rewrite (Hkept Habsent).
Qed.

(** C8, witness: Carol is removed from a registry that holds Alice and
    Bob. *)
Lemma removePeer_absent_witness :
  let s' := snd (removePeer all_fine carol (fresh true [alice; bob])) in
  stored s' = [alice; bob] /\
  calls s' = [StorageGet; StorageSet [alice; bob];
              UnsubscribeFromEncryptedMessage "pkC"].
Proof.
  assert (Hread : readable all_fine (fresh true [alice; bob])) by reflexivity.
  destruct (@removePeer_absent all_fine carol (fresh true [alice; bob])
              Hread eq_refl) as (Hcalls & Hstored & _).
  split; [exact Hstored|exact Hcalls].
Defined.

(** ** Storage failures *)

Lemma removePeer_write_rejected (env : Env) (p : Peer) (s : State) (e : exn) :
  readable env s ->
  answer (reply env (calls s ++ [StorageGet])
            (StorageSet (filter (fun peer =>
               negb (String.eqb (pubKey peer) (pubKey p))) (stored s))))
  = Fails e ->
  rejected_without_effect (removePeer env p s) s e
    [StorageGet;
     StorageSet (filter (fun peer =>
       negb (String.eqb (pubKey peer) (pubKey p))) (stored s))].
Proof.
  unfold rejected_without_effect.
  destruct s as [dapp listening status peers history lines clock resolved].
  run. intros Hread Hwrite. rewrite Hread. run. rewrite Hwrite. run.
  rewrite <- app_assoc. repeat split.
Qed.

Lemma removeAllPeers_write_rejected (env : Env) (s : State) (e : exn) :
  answer (reply env (calls s) (StorageSet [])) = Fails e ->
  rejected_without_effect (removeAllPeers env s) s e [StorageSet []].
Proof.
  unfold rejected_without_effect.
  destruct s as [dapp listening status peers history lines clock resolved].
  run. intros Hwrite. rewrite Hwrite. run. repeat split.
Qed.

(** A call that is fulfilled has stored the new list. *)
Lemma fulfilled_after_write (env : Env) (s : State) :
  (forall p, fst (addPeer env p s) = Fulfilled tt ->
             known (pubKey p) (stored s) = false ->
             stored (snd (addPeer env p s)) = stored s ++ [p]) /\
  (forall p, fst (removePeer env p s) = Fulfilled tt ->
             stored (snd (removePeer env p s))
             = filter (fun peer => negb (String.eqb (pubKey peer) (pubKey p)))
                      (stored s)) /\
  (fst (removeAllPeers env s) = Fulfilled tt ->
   stored (snd (removeAllPeers env s)) = []).
Proof.
  destruct s as [dapp listening status peers history lines clock resolved].
  split; [|split].
  - intros p. run. next_answer; try discriminate.
    intros Hf Hknown. rewrite Hknown in *. revert Hf. run. rewrite peer_eta.
    repeat next_answer; intros; try discriminate; reflexivity.
  - intros p. run. repeat next_answer; intros; try discriminate; reflexivity.
  - run. repeat next_answer; intros; try discriminate; reflexivity.
Qed.

(** The callback when the key is new and the write is rejected: the
    rejection is logged, and the listen setup and the success event follow
    as if the write had gone through. *)
Lemma channelOpeningCallback_write_rejected (env : Env) (pk : string)
    (s : State) (e : exn) :
  readable env s ->
  known pk (stored s) = false ->
  answer (reply env (calls s ++ [StorageGet])
            (StorageSet (stored s ++ [mkPeer "" pk ""]))) = Fails e ->
  let s' := snd (channelOpeningCallback env pk s) in
  let setup :=
    reply env (calls s ++ [StorageGet; StorageSet (stored s ++ [mkPeer "" pk ""])])
          (ListenForEncryptedMessage pk) in
  stored s' = stored s /\
  In (LError e) (logged s') /\
  (exists rest,
     calls s' = calls s ++ [StorageGet;
                            StorageSet (stored s ++ [mkPeer "" pk ""]);
                            ListenForEncryptedMessage pk] ++ rest) /\
  (answer setup = Succeeds ->
   fst (channelOpeningCallback env pk s) = Fulfilled tt /\
   calls s' = calls s ++ [StorageGet;
                          StorageSet (stored s ++ [mkPeer "" pk ""]);
                          ListenForEncryptedMessage pk;
                          Emit P2P_CHANNEL_CONNECT_SUCCESS None]).
Proof.
  destruct s as [dapp listening status peers history lines clock resolved].
  run. intros Hread Hknown Hwrite. rewrite Hread. run. rewrite Hknown. run.
  rewrite Hwrite. run. rewrite <- !app_assoc. simpl app.
  destruct (answer (reply env _ (ListenForEncryptedMessage pk))) eqn:Hsetup;
    run.
  - next_answer; rewrite <- ?app_assoc; simpl app;
      (split; [reflexivity|]);
      (split; [rewrite !in_app_iff; simpl; tauto|]);
      (split; [now exists [Emit P2P_CHANNEL_CONNECT_SUCCESS None]|]);
      intros _; split; reflexivity.
  - split; [reflexivity|]. split; [rewrite !in_app_iff; simpl; tauto|].
    split; [now exists []|]. discriminate.
  - split; [reflexivity|]. split; [rewrite !in_app_iff; simpl; tauto|].
    split; [now exists []|]. discriminate.
Qed.

(** C6, as amended.  [addPeer], [removePeer] and [removeAllPeers] await
    the write of the new list before anything else: when the write is
    rejected the call is rejected with the same reason, the stored list is
    unchanged and no client call follows; and a call that is fulfilled has
    stored the new list.  The insertion made by the channel-opening
    callback does not wait for its write: a rejected write is only logged,
    the stored list is unchanged, and the listen setup and the success
    event follow regardless. *)
Theorem storage_failure_on_mutation (env : Env) (s : State) (e : exn) :
  (forall p,
     readable env s ->
     ~ In (pubKey p) (map pubKey (stored s)) ->
     answer (reply env (calls s ++ [StorageGet])
                (StorageSet (stored s ++ [p]))) = Fails e ->
     rejected_without_effect (addPeer env p s) s e
       [StorageGet; StorageSet (stored s ++ [p])]) /\
  (forall p,
     let kept :=
       filter (fun peer => negb (String.eqb (pubKey peer) (pubKey p)))
              (stored s) in
     readable env s ->
     answer (reply env (calls s ++ [StorageGet]) (StorageSet kept)) = Fails e ->
     rejected_without_effect (removePeer env p s) s e
       [StorageGet; StorageSet kept]) /\
  (answer (reply env (calls s) (StorageSet [])) = Fails e ->
   rejected_without_effect (removeAllPeers env s) s e [StorageSet []]) /\
  (forall p,
     fst (addPeer env p s) = Fulfilled tt ->
     ~ In (pubKey p) (map pubKey (stored s)) ->
     stored (snd (addPeer env p s)) = stored s ++ [p]) /\
  (forall p,
     fst (removePeer env p s) = Fulfilled tt ->
     stored (snd (removePeer env p s))
     = filter (fun peer => negb (String.eqb (pubKey peer) (pubKey p)))
              (stored s)) /\
  (fst (removeAllPeers env s) = Fulfilled tt ->
   stored (snd (removeAllPeers env s)) = []) /\
  (forall pk,
     let added := stored s ++ [mkPeer "" pk ""] in
     let s' := snd (channelOpeningCallback env pk s) in
     readable env s ->
     ~ In pk (map pubKey (stored s)) ->
     answer (reply env (calls s ++ [StorageGet]) (StorageSet added)) = Fails e ->
     stored s' = stored s /\
     In (LError e) (logged s') /\
     (exists rest,
        calls s' = calls s ++ [StorageGet; StorageSet added;
                               ListenForEncryptedMessage pk] ++ rest) /\
     (answer (reply env (calls s ++ [StorageGet; StorageSet added])
                 (ListenForEncryptedMessage pk)) = Succeeds ->
      fst (channelOpeningCallback env pk s) = Fulfilled tt /\
      calls s' = calls s ++ [StorageGet; StorageSet added;
                             ListenForEncryptedMessage pk;
                             Emit P2P_CHANNEL_CONNECT_SUCCESS None])).
Proof.
  destruct (fulfilled_after_write env s) as (Hadd & Hremove & Hclear).
  split; [|split; [|split; [|split; [|split; [|split]]]]].
  - intros p Hread Habsent Hwrite. apply known_false in Habsent.
    now apply addPeer_unknown_rejected.
  - intros p kept Hread Hwrite. now apply removePeer_write_rejected.
  - apply removeAllPeers_write_rejected.
  - intros p Hf Habsent. apply known_false in Habsent. now apply Hadd.
  - assumption.
  - assumption.
  - intros pk added s' Hread Habsent Hwrite. apply known_false in Habsent.
    now apply channelOpeningCallback_write_rejected.
Qed.

(** C6, witness: the write made by [addPeer] is rejected. *)
Lemma storage_failure_on_mutation_witness :
  rejected_without_effect (addPeer disk_full bob (fresh true [alice]))
    (fresh true [alice]) (Error "quota exceeded")
    [StorageGet; StorageSet [alice; bob]].
Proof.
  assert (Hread : readable disk_full (fresh true [alice])) by reflexivity.
  assert (Habsent : ~ In (pubKey bob)
                        (map pubKey (stored (fresh true [alice])))).
  { simpl. intros [H|[]]. discriminate. }
  exact (proj1 (@storage_failure_on_mutation disk_full (fresh true [alice])
                  (Error "quota exceeded")) bob Hread Habsent eq_refl).
Defined.

(** C6, counterexample.  A counterpart with the new key [pkC] opens a
    channel while the storage rejects writes.  The claim has the failure
    reach the caller and no channel be set up.  The callback is fulfilled,
    and the listen setup and the success event follow the rejected write;
    the failure only shows in the log. *)
Lemma channelOpeningCallback_storage_failure_counterexample :
  let s := fresh true [alice] in
  let run := channelOpeningCallback disk_full "pkC" s in
  answer (reply disk_full [StorageGet]
             (StorageSet [alice; mkPeer "" "pkC" ""]))
  = Fails (Error "quota exceeded") /\
  fst run = Fulfilled tt /\
  calls (snd run)
  = [StorageGet; StorageSet [alice; mkPeer "" "pkC" ""];
     ListenForEncryptedMessage "pkC"; Emit P2P_CHANNEL_CONNECT_SUCCESS None] /\
  logged (snd run) = [LNewPubKey "pkC"; LError (Error "quota exceeded")] /\
  stored (snd run) = [alice].
Proof. cbv zeta. repeat split. Qed.

(** ** Peers learnt from the handshake and peers added explicitly *)

(** C10.  A record that the channel-opening callback adds to the stored
    list has an empty [name] and an empty [relayServer] next to the key
    received; when the registry can be read, the key is new and the write
    is accepted, that record is appended.  A record that [addPeer] adds is
    the peer it was given, with its [name], [pubKey] and [relayServer]. *)
Theorem handshake_peer_fields (env : Env) (s : State) :
  (forall pk q,
     In q (stored (snd (channelOpeningCallback env pk s))) ->
     In q (stored s) \/ q = mkPeer "" pk "") /\
  (forall pk,
     readable env s ->
     ~ In pk (map pubKey (stored s)) ->
     answer (reply env (calls s ++ [StorageGet])
                (StorageSet (stored s ++ [mkPeer "" pk ""]))) = Succeeds ->
     stored (snd (channelOpeningCallback env pk s))
     = stored s ++ [mkPeer "" pk ""]) /\
  (forall p q,
     In q (stored (snd (addPeer env p s))) -> In q (stored s) \/ q = p) /\
  (forall p,
     readable env s ->
     ~ In (pubKey p) (map pubKey (stored s)) ->
     answer (reply env (calls s ++ [StorageGet])
                (StorageSet (stored s ++ [p]))) = Succeeds ->
     stored (snd (addPeer env p s)) = stored s ++ [p]).
Proof.
  destruct s as [dapp listening status peers history lines clock resolved].
  split; [|split; [|split]].
  - intros pk q. run. next_answer; auto.
    destruct (known pk peers); run; repeat next_answer;
      rewrite ?in_app_iff; simpl; intuition auto.
  - intros pk. run. intros Hread Habsent Hwrite.
    apply known_false in Habsent. rewrite Hread. run. rewrite Habsent. run.
    rewrite Hwrite. run. repeat next_answer; reflexivity.
  - intros p q. run. next_answer; auto.
    destruct (known (pubKey p) peers); run; rewrite ?peer_eta;
      repeat next_answer; rewrite ?in_app_iff; simpl; intuition auto.
  - intros p Hread Habsent Hwrite. apply known_false in Habsent.
    now apply (@addPeer_unknown_stored env p
                 (mkState dapp listening status peers history lines clock
                          resolved)).
Qed.

(** C10, witness: a counterpart with the key [pkC] pairs with a transport
    that knows Alice. *)
Lemma handshake_peer_fields_witness :
  stored (snd (channelOpeningCallback all_fine "pkC" (fresh true [alice])))
  = [alice; mkPeer "" "pkC" ""].
Proof.
  assert (Hread : readable all_fine (fresh true [alice])) by reflexivity.
  assert (Habsent : ~ In "pkC" (map pubKey (stored (fresh true [alice])))).
  { simpl. intros [H|[]]. discriminate. }
  exact (proj1 (proj2 (@handshake_peer_fields all_fine (fresh true [alice])))
           "pkC" Hread Habsent eq_refl).
Defined.

(** * Further properties of the transport *)

(** ** The registry, continued *)

(** [removePeer] when the registry can be read and the write is accepted. *)
Lemma removePeer_accepted (env : Env) (p : Peer) (s : State) :
  readable env s ->
  answer (reply env (calls s ++ [StorageGet])
            (StorageSet (filter (fun peer =>
               negb (String.eqb (pubKey peer) (pubKey p))) (stored s))))
  = Succeeds ->
  stored (snd (removePeer env p s))
  = filter (fun peer => negb (String.eqb (pubKey peer) (pubKey p))) (stored s).
Proof.
  destruct s as [dapp listening status peers history lines clock resolved].
  run. intros Hread Hwrite. rewrite Hread. run. rewrite Hwrite. run.
  repeat next_answer; reflexivity.
Qed.

Lemma known_filter_out (k : string) (peers : list Peer) :
  known k (filter (fun peer => negb (String.eqb (pubKey peer) k)) peers)
  = false.
Proof.
  apply known_false. intros Hin. apply in_map_iff in Hin.
  destruct Hin as (q & Hq & Hin). apply filter_In in Hin.
  destruct Hin as [_ Hneq]. rewrite <- Hq, String.eqb_refl in Hneq.
  discriminate.
Qed.

(** X1.  After a [removePeer] whose read and write go through, no stored
    record carries the key of the peer given, however many carried it
    before, and the records with other keys are the ones that were
    there. *)
Theorem removePeer_forgets_key (env : Env) (p : Peer) (s : State) :
  readable env s ->
  answer (reply env (calls s ++ [StorageGet])
            (StorageSet (filter (fun peer =>
               negb (String.eqb (pubKey peer) (pubKey p))) (stored s))))
  = Succeeds ->
  let after := stored (snd (removePeer env p s)) in
  ~ In (pubKey p) (map pubKey after) /\
  count_key (pubKey p) after = 0 /\
  forall q, pubKey q <> pubKey p -> (In q after <-> In q (stored s)).
Proof.
  intros Hread Hwrite after. subst after.
  rewrite (removePeer_accepted p Hread Hwrite).
  pose proof (known_filter_out (pubKey p) (stored s)) as Hgone.
  split; [now apply known_false|]. split; [now apply count_key_unknown|].
  intros q Hq. rewrite filter_In. split; [tauto|].
  intros Hin. split; [assumption|].
  destruct (String.eqb_spec (pubKey q) (pubKey p)); [contradiction|reflexivity].
Qed.

(** X1, witness: Bob is removed from a registry that holds Alice and Bob. *)
Lemma removePeer_forgets_key_witness :
  ~ In "pkB" (map pubKey
                (stored (snd (removePeer all_fine bob (fresh true [alice; bob]))))).
Proof.
  assert (Hread : readable all_fine (fresh true [alice; bob])) by reflexivity.
  exact (proj1 (@removePeer_forgets_key all_fine bob (fresh true [alice; bob])
                  Hread eq_refl)).
Defined.

(** X2.  Adding a peer whose key is new and removing it again gives back
    the stored list one started from, when the storage can be read and
    written; whether the channel could be opened in between does not
    matter. *)
Theorem addPeer_removePeer_round_trip (env : Env) (p : Peer) (s : State) :
  succeeds env StorageGet ->
  (forall peers, succeeds env (StorageSet peers)) ->
  ~ In (pubKey p) (map pubKey (stored s)) ->
  stored (snd (removePeer env p (snd (addPeer env p s)))) = stored s.
Proof.
  intros Hread Hwrite Habsent.
  assert (Hadded : stored (snd (addPeer env p s)) = stored s ++ [p]).
  { apply addPeer_unknown_stored; [apply Hread| |apply Hwrite].
    now apply known_false. }
  rewrite removePeer_accepted; [|apply Hread|apply Hwrite].
  rewrite Hadded, filter_app, (filter_absent _ _ Habsent). simpl.
  rewrite String.eqb_refl. simpl. apply app_nil_r.
Qed.

(** X2, witness: Carol comes and goes. *)
Lemma addPeer_removePeer_round_trip_witness :
  stored (snd (removePeer all_fine carol
                 (snd (addPeer all_fine carol (fresh true [alice; bob])))))
  = [alice; bob].
Proof.
  assert (Hread : succeeds all_fine StorageGet) by (intros h; reflexivity).
  assert (Hwrite : forall peers, succeeds all_fine (StorageSet peers))
    by (intros peers h; reflexivity).
  assert (Habsent : ~ In (pubKey carol)
                        (map pubKey (stored (fresh true [alice; bob])))).
  { simpl. intros [H|[H|[]]]; discriminate. }
  exact (@addPeer_removePeer_round_trip all_fine carol
           (fresh true [alice; bob]) Hread Hwrite Habsent).
Defined.

(** [getPeers] when the registry can be read. *)
Lemma getPeers_readable (env : Env) (s : State) :
  readable env s ->
  fst (getPeers env s) = Fulfilled (stored s) /\
  stored (snd (getPeers env s)) = stored s /\
  calls (snd (getPeers env s)) = calls s ++ [StorageGet].
Proof.
  destruct s as [dapp listening status peers history lines clock resolved].
  unfold getPeers. run. intros Hread. rewrite Hread. run. repeat split.
Qed.

(** X3.  A peer with a new key that [addPeer] has stored is the last
    entry of what [getPeers] returns next, behind the peers that were
    there; [getPeers] itself leaves the stored list alone. *)
Theorem getPeers_after_addPeer (env : Env) (p : Peer) (s : State) :
  succeeds env StorageGet ->
  (forall peers, succeeds env (StorageSet peers)) ->
  ~ In (pubKey p) (map pubKey (stored s)) ->
  let s1 := snd (addPeer env p s) in
  fst (getPeers env s1) = Fulfilled (stored s ++ [p]) /\
  stored (snd (getPeers env s1)) = stored s ++ [p].
Proof.
  intros Hread Hwrite Habsent s1.
  assert (Hadded : stored s1 = stored s ++ [p]).
  { apply addPeer_unknown_stored; [apply Hread| |apply Hwrite].
    now apply known_false. }
  destruct (@getPeers_readable env s1 (Hread _)) as (Ho & Hstored & _).
  rewrite Ho, Hstored, Hadded. split; reflexivity.
Qed.

(** X3, witness: Bob is listed after Alice. *)
Lemma getPeers_after_addPeer_witness :
  fst (getPeers all_fine (snd (addPeer all_fine bob (fresh true [alice]))))
  = Fulfilled [alice; bob].
Proof.
  assert (Hread : succeeds all_fine StorageGet) by (intros h; reflexivity).
  assert (Hwrite : forall peers, succeeds all_fine (StorageSet peers))
    by (intros peers h; reflexivity).
  assert (Habsent : ~ In (pubKey bob) (map pubKey (stored (fresh true [alice])))).
  { simpl. intros [H|[]]; discriminate. }
  exact (proj1 (@getPeers_after_addPeer all_fine bob (fresh true [alice])
                  Hread Hwrite Habsent)).
Defined.

(** [send] to a recipient that is given and unknown, and a broadcast over
    an empty registry. *)
Lemma send_unknown_recipient (env : Env) (message r : string) (s : State) :
  r <> "" ->
  readable env s ->
  known r (stored s) = false ->
  fst (send env message (Some r) s) = Rejected (Error "Recipient unknown") /\
  calls (snd (send env message (Some r) s)) = calls s ++ [StorageGet].
Proof.
  intros Hr Hread Hknown.
  assert (Htruthy : truthy (Some r) = true).
  { simpl. destruct (String.eqb_spec r ""); [contradiction|reflexivity]. }
  unfold send, bind. rewrite (await_storage_get Hread), Htruthy.
  simpl stored. rewrite Hknown. split; reflexivity.
Qed.

Lemma send_known_recipient (env : Env) (message r : string) (s : State) :
  r <> "" ->
  readable env s ->
  known r (stored s) = true ->
  fst (send env message (Some r) s)
  = outcome_of (reply env (calls s ++ [StorageGet]) (SendMessage r message)) /\
  calls (snd (send env message (Some r) s))
  = calls s ++ [StorageGet; SendMessage r message].
Proof.
  intros Hr Hread Hknown.
  assert (Htruthy : truthy (Some r) = true).
  { simpl. destruct (String.eqb_spec r ""); [contradiction|reflexivity]. }
  unfold send, bind. rewrite (await_storage_get Hread), Htruthy.
  simpl stored. rewrite Hknown. cbv beta iota delta [negb].
  unfold client_sendMessage.
  destruct (await_plain env (SendMessage r message)
              (advance_to (read_done env s) (record_call StorageGet s)))
    as (Ho & Hcalls & _).
  rewrite Ho, Hcalls. simpl. rewrite <- app_assoc. split; reflexivity.
Qed.

Lemma broadcast_empty_registry (env : Env) (message : string) (s : State) :
  readable env s ->
  stored s = [] ->
  fst (send env message None s) = Fulfilled tt /\
  calls (snd (send env message None s)) = calls s ++ [StorageGet].
Proof.
  destruct s as [dapp listening status peers history lines clock resolved].
  simpl. intros Hread ->. unfold send, bind.
  rewrite (await_storage_get Hread). split; reflexivity.
Qed.

(** [removeAllPeers] when the write is accepted. *)
Lemma removeAllPeers_accepted (env : Env) (s : State) :
  answer (reply env (calls s) (StorageSet [])) = Succeeds ->
  stored (snd (removeAllPeers env s)) = [] /\
  calls (snd (removeAllPeers env s))
  = calls s ++ [StorageSet []; UnsubscribeFromEncryptedMessages].
Proof.
  destruct s as [dapp listening status peers history lines clock resolved].
  run. intros Hwrite. rewrite Hwrite. run.
  next_answer; rewrite <- ?app_assoc; split; reflexivity.
Qed.

(** X4.  [removeAllPeers] with an accepted write empties the registry with
    one write and one bulk unsubscribe, whatever the number of peers, and
    makes no per-peer call.  From then on a [send] to any recipient is
    rejected as unknown and a broadcast reaches nobody. *)
Theorem removeAllPeers_clears (env : Env) (s : State) :
  answer (reply env (calls s) (StorageSet [])) = Succeeds ->
  succeeds env StorageGet ->
  let s' := snd (removeAllPeers env s) in
  stored s' = [] /\
  calls s' = calls s ++ [StorageSet []; UnsubscribeFromEncryptedMessages] /\
  (forall message r,
     r <> "" ->
     fst (send env message (Some r) s') = Rejected (Error "Recipient unknown")) /\
  (forall message,
     fst (send env message None s') = Fulfilled tt /\
     calls (snd (send env message None s')) = calls s' ++ [StorageGet]).
Proof.
  intros Hwrite Hread s'.
  destruct (removeAllPeers_accepted env s Hwrite) as (Hstored & Hcalls).
  fold s' in Hstored, Hcalls.
  split; [assumption|]. split; [assumption|]. split.
  - intros message r Hr.
    apply send_unknown_recipient; [assumption|apply Hread|].
    now rewrite Hstored.
  - intros message. apply broadcast_empty_registry; [apply Hread|assumption].
Qed.

(** X4, witness: a registry of three peers is cleared. *)
Lemma removeAllPeers_clears_witness :
  calls (snd (removeAllPeers all_fine (fresh true [alice; bob; carol])))
  = [StorageSet []; UnsubscribeFromEncryptedMessages].
Proof.
  assert (Hread : succeeds all_fine StorageGet) by (intros h; reflexivity).
  exact (proj1 (proj2 (@removeAllPeers_clears all_fine
                         (fresh true [alice; bob; carol]) eq_refl Hread))).
Defined.

(** X5.  When [addPeer] has stored a new peer and [openChannel] fails, the
    call is rejected with that failure and no listen setup is made, but
    the peer stays stored.  A second [addPeer] for the same peer then
    finds the key known and does nothing: the channel is not opened
    again. *)
Theorem addPeer_openChannel_failure (env : Env) (p : Peer) (s : State)
    (e : exn) :
  succeeds env StorageGet ->
  ~ In (pubKey p) (map pubKey (stored s)) ->
  answer (reply env (calls s ++ [StorageGet]) (StorageSet (stored s ++ [p])))
  = Succeeds ->
  answer (reply env (calls s ++ [StorageGet; StorageSet (stored s ++ [p])])
            (OpenChannel (pubKey p) (relayServer p))) = Fails e ->
  let s1 := snd (addPeer env p s) in
  let s2 := snd (addPeer env p s1) in
  fst (addPeer env p s) = Rejected e /\
  stored s1 = stored s ++ [p] /\
  calls s1 = calls s ++ [StorageGet; StorageSet (stored s ++ [p]);
                         OpenChannel (pubKey p) (relayServer p)] /\
  fst (addPeer env p s1) = Fulfilled tt /\
  calls s2 = calls s1 ++ [StorageGet] /\
  stored s2 = stored s1.
Proof.
  intros Hread Habsent Hwrite Hopen s1 s2.
  apply known_false in Habsent.
  assert (Hfirst : fst (addPeer env p s) = Rejected e /\
                   stored s1 = stored s ++ [p] /\
                   calls s1 = calls s ++ [StorageGet;
                                          StorageSet (stored s ++ [p]);
                                          OpenChannel (pubKey p) (relayServer p)]).
  { subst s1 s2. revert Habsent Hwrite Hopen. specialize (Hread (calls s)).
    revert Hread.
    destruct s as [dapp listening status peers history lines clock resolved].
    run. intros Hread Habsent Hwrite Hopen.
    rewrite Hread. run. rewrite Habsent. run. rewrite peer_eta, Hwrite. run.
    rewrite <- !app_assoc. simpl app. rewrite Hopen. run. repeat split. }
  destruct Hfirst as (Ho & Hstored & Hcalls).
  assert (Hknown1 : known (pubKey p) (stored s1) = true).
  { rewrite Hstored. apply known_spec. rewrite map_app. apply in_or_app.
    right. now left. }
  assert (Hsecond := @addPeer_known env p s1 (Hread _) Hknown1).
  split; [assumption|]. split; [assumption|]. split; [assumption|].
  unfold s2. rewrite Hsecond. repeat split.
Qed.

(** X5, witness: the relay refuses the channel to Bob. *)
Lemma addPeer_openChannel_failure_witness :
  let s1 := snd (addPeer (refusing is_openChannel) bob (fresh true [alice])) in
  fst (addPeer (refusing is_openChannel) bob (fresh true [alice]))
  = Rejected (Error "refused") /\
  stored s1 = [alice; bob] /\
  calls (snd (addPeer (refusing is_openChannel) bob s1))
  = [StorageGet; StorageSet [alice; bob]; OpenChannel "pkB" "relay-b";
     StorageGet].
Proof.
  assert (Hread : succeeds (refusing is_openChannel) StorageGet)
    by (intros h; reflexivity).
  assert (Habsent : ~ In (pubKey bob) (map pubKey (stored (fresh true [alice])))).
  { simpl. intros [H|[]]; discriminate. }
  destruct (@addPeer_openChannel_failure (refusing is_openChannel) bob
              (fresh true [alice]) (Error "refused") Hread Habsent
              eq_refl eq_refl)
    as (Ho & Hstored & Hcalls & _ & Hcalls2 & _).
  split; [exact Ho|]. split; [exact Hstored|].
  rewrite Hcalls2, Hcalls. reflexivity.
Defined.

(** X6.  When the key is new and every collaborator accepts, [addPeer]
    persists first, then opens the channel through the relay of the peer
    given, then sets up listening for its key, in this order, and logs the
    new count of peers. *)
Theorem addPeer_new_peer_sequence (env : Env) (p : Peer) (s : State) :
  readable env s ->
  ~ In (pubKey p) (map pubKey (stored s)) ->
  answer (reply env (calls s ++ [StorageGet]) (StorageSet (stored s ++ [p])))
  = Succeeds ->
  answer (reply env (calls s ++ [StorageGet; StorageSet (stored s ++ [p])])
            (OpenChannel (pubKey p) (relayServer p))) = Succeeds ->
  answer (reply env (calls s ++ [StorageGet; StorageSet (stored s ++ [p]);
                                 OpenChannel (pubKey p) (relayServer p)])
            (ListenForEncryptedMessage (pubKey p))) = Succeeds ->
  let s' := snd (addPeer env p s) in
  fst (addPeer env p s) = Fulfilled tt /\
  calls s' = calls s ++ [StorageGet; StorageSet (stored s ++ [p]);
                         OpenChannel (pubKey p) (relayServer p);
                         ListenForEncryptedMessage (pubKey p)] /\
  stored s' = stored s ++ [p] /\
  logged s' = logged s ++ [LAddPeer p; LPeerAdded (S (length (stored s)))].
Proof.
  destruct s as [dapp listening status peers history lines clock resolved].
  run. intros Hread Habsent Hwrite Hopen Hlisten.
  apply known_false in Habsent.
  rewrite Hread. run. rewrite Habsent. run. rewrite peer_eta, Hwrite. run.
  rewrite <- !app_assoc. simpl app. rewrite Hopen. run.
  rewrite <- !app_assoc. simpl app. rewrite Hlisten. run.
  rewrite <- ?app_assoc, length_app, Nat.add_1_r. repeat split.
Qed.

(** X6, witness: Bob joins Alice. *)
Lemma addPeer_new_peer_sequence_witness :
  calls (snd (addPeer all_fine bob (fresh true [alice])))
  = [StorageGet; StorageSet [alice; bob]; OpenChannel "pkB" "relay-b";
     ListenForEncryptedMessage "pkB"].
Proof.
  assert (Hread : readable all_fine (fresh true [alice])) by reflexivity.
  assert (Habsent : ~ In (pubKey bob) (map pubKey (stored (fresh true [alice])))).
  { simpl. intros [H|[]]; discriminate. }
  exact (proj1 (proj2 (@addPeer_new_peer_sequence all_fine bob
                         (fresh true [alice]) Hread Habsent
                         eq_refl eq_refl eq_refl))).
Defined.

(** X7.  Once [addPeer] has stored a peer with a new, non-empty key, a
    [send] to that key is no longer rejected as unknown: it makes exactly
    one [sendMessage] to that key and returns its outcome, even when the
    channel to the peer could not be opened. *)
Theorem send_after_addPeer (env : Env) (p : Peer) (message : string)
    (s : State) :
  succeeds env StorageGet ->
  (forall peers, succeeds env (StorageSet peers)) ->
  pubKey p <> "" ->
  ~ In (pubKey p) (map pubKey (stored s)) ->
  let s1 := snd (addPeer env p s) in
  fst (send env message (Some (pubKey p)) s1)
  = outcome_of (reply env (calls s1 ++ [StorageGet])
                  (SendMessage (pubKey p) message)) /\
  calls (snd (send env message (Some (pubKey p)) s1))
  = calls s1 ++ [StorageGet; SendMessage (pubKey p) message].
Proof.
  intros Hread Hwrite Hkey Habsent s1.
  apply send_known_recipient; [assumption|apply Hread|].
  unfold s1. rewrite addPeer_unknown_stored;
    [|apply Hread|now apply known_false|apply Hwrite].
  apply known_spec. rewrite map_app. apply in_or_app. right. now left.
Qed.

(** X7, witness: Bob is added over a relay that refuses the channel, and
    is sent a message all the same. *)
Lemma send_after_addPeer_witness :
  calls (snd (send (refusing is_openChannel) "ping" (Some "pkB")
                (snd (addPeer (refusing is_openChannel) bob
                        (fresh true [alice])))))
  = [StorageGet; StorageSet [alice; bob]; OpenChannel "pkB" "relay-b";
     StorageGet; SendMessage "pkB" "ping"].
Proof.
  assert (Hread : succeeds (refusing is_openChannel) StorageGet)
    by (intros h; reflexivity).
  assert (Hwrite : forall peers,
            succeeds (refusing is_openChannel) (StorageSet peers))
    by (intros peers h; reflexivity).
  assert (Hkey : pubKey bob <> "") by discriminate.
  assert (Habsent : ~ In (pubKey bob) (map pubKey (stored (fresh true [alice])))).
  { simpl. intros [H|[]]; discriminate. }
  exact (proj2 (@send_after_addPeer (refusing is_openChannel) bob "ping"
                  (fresh true [alice]) Hread Hwrite Hkey Habsent)).
Defined.

(** X8.  Once [removePeer] has gone through for a peer with a non-empty
    key, a [send] to that key is rejected as unknown and makes no client
    call. *)
Theorem send_after_removePeer (env : Env) (p : Peer) (message : string)
    (s : State) :
  succeeds env StorageGet ->
  (forall peers, succeeds env (StorageSet peers)) ->
  pubKey p <> "" ->
  let s1 := snd (removePeer env p s) in
  fst (send env message (Some (pubKey p)) s1)
  = Rejected (Error "Recipient unknown") /\
  calls (snd (send env message (Some (pubKey p)) s1)) = calls s1 ++ [StorageGet].
Proof.
  intros Hread Hwrite Hkey s1.
  apply send_unknown_recipient; [assumption|apply Hread|].
  unfold s1. rewrite removePeer_accepted; [|apply Hread|apply Hwrite].
  apply known_filter_out.
Qed.

(** X8, witness: Bob is removed and cannot be written to any more. *)
Lemma send_after_removePeer_witness :
  fst (send all_fine "ping" (Some "pkB")
         (snd (removePeer all_fine bob (fresh true [alice; bob]))))
  = Rejected (Error "Recipient unknown").
Proof.
  assert (Hread : succeeds all_fine StorageGet) by (intros h; reflexivity).
  assert (Hwrite : forall peers, succeeds all_fine (StorageSet peers))
    by (intros peers h; reflexivity).
  assert (Hkey : pubKey bob <> "") by discriminate.
  exact (proj1 (@send_after_removePeer all_fine bob "ping"
                  (fresh true [alice; bob]) Hread Hwrite Hkey)).
Defined.

(** ** Failures of the storage read *)

Lemma await_storage_get_fails (env : Env) (s : State) (e : exn) :
  answer (reply env (calls s) StorageGet) = Fails e ->
  await (storage_get env) s
  = (Rejected e, advance_to (read_done env s) (record_call StorageGet s)).
Proof.
  unfold read_done, await, storage_get, collaborator, await_promise.
  intros H. rewrite H. reflexivity.
Qed.

(** X9.  When the read of the peer list fails, [send] (with or without a
    recipient), [addPeer], [removePeer], [getPeers] and the channel-opening
    callback are each rejected with the failure of the read; the read is
    the only call made and the stored list is untouched. *)
Theorem storage_read_failure (env : Env) (s : State) (e : exn) :
  answer (reply env (calls s) StorageGet) = Fails e ->
  (forall message recipient,
     rejected_without_effect (send env message recipient s) s e [StorageGet]) /\
  (forall p, rejected_without_effect (addPeer env p s) s e [StorageGet]) /\
  (forall p, rejected_without_effect (removePeer env p s) s e [StorageGet]) /\
  (forall pk,
     rejected_without_effect (channelOpeningCallback env pk s) s e
       [StorageGet]) /\
  fst (getPeers env s) = Rejected e /\
  stored (snd (getPeers env s)) = stored s /\
  calls (snd (getPeers env s)) = calls s ++ [StorageGet].
Proof.
  intros Hread. unfold rejected_without_effect.
  split; [|split; [|split; [|split]]].
  - intros message recipient. unfold send, bind.
    rewrite (@await_storage_get_fails env s e Hread). repeat split.
  - intros p. revert Hread.
    destruct s as [dapp listening status peers history lines clock resolved].
    run. intros ->. run. repeat split.
  - intros p. revert Hread.
    destruct s as [dapp listening status peers history lines clock resolved].
    run. intros ->. run. repeat split.
  - intros pk. revert Hread.
    destruct s as [dapp listening status peers history lines clock resolved].
    run. intros ->. run. repeat split.
  - revert Hread.
    destruct s as [dapp listening status peers history lines clock resolved].
    unfold getPeers. run. intros ->. run. repeat split.
Qed.

(** X9, witness: the storage cannot be read and Bob cannot be added. *)
Lemma storage_read_failure_witness :
  rejected_without_effect
    (addPeer (refusing is_storageGet) bob (fresh true [alice]))
    (fresh true [alice]) (Error "refused") [StorageGet].
Proof.
  exact (proj1 (proj2 (@storage_read_failure (refusing is_storageGet)
                         (fresh true [alice]) (Error "refused") eq_refl))
           bob).
Defined.

(** ** Connecting, continued *)

(** X11.  A [connect] whose [start] fails, or whose read of the registry
    fails after a successful start, is rejected with that failure and
    makes no further call; the state it had set to [CONNECTING] is left
    there. *)
Theorem connect_early_failure (env : Env) (s : State) (e : exn) :
  (answer (reply env (calls s) Start) = Fails e ->
   fst (connect env s) = Rejected e /\
   _isConnected (snd (connect env s)) = CONNECTING /\
   calls (snd (connect env s)) = calls s ++ [Start]) /\
  (answer (reply env (calls s) Start) = Succeeds ->
   answer (reply env (calls s ++ [Start]) StorageGet) = Fails e ->
   fst (connect env s) = Rejected e /\
   _isConnected (snd (connect env s)) = CONNECTING /\
   calls (snd (connect env s)) = calls s ++ [Start; StorageGet]).
Proof.
  destruct s as [dapp listening status peers history lines clock resolved].
  unfold connect. split.
  - run. intros ->. run. repeat split.
  - run. intros ->. run. intros ->. run. rewrite <- app_assoc. repeat split.
Qed.

(** X11, witness: the client does not start. *)
Lemma connect_early_failure_witness :
  fst (connect (refusing is_start) (fresh true [alice])) = Rejected (Error "refused") /\
  _isConnected (snd (connect (refusing is_start) (fresh true [alice])))
  = CONNECTING /\
  calls (snd (connect (refusing is_start) (fresh true [alice]))) = [Start].
Proof.
  exact (proj1 (@connect_early_failure (refusing is_start)
                  (fresh true [alice]) (Error "refused")) eq_refl).
Defined.

(** X12.  On a transport that is not a dApp, [connect] over an empty
    registry starts the client, reads the registry and is connected: it
    installs no channel-opening listener and advertises nothing. *)
Theorem connect_wallet_empty_registry (env : Env) (s : State) :
  isDapp s = false ->
  stored s = [] ->
  answer (reply env (calls s) Start) = Succeeds ->
  answer (reply env (calls s ++ [Start]) StorageGet) = Succeeds ->
  fst (connect env s) = Fulfilled tt /\
  _isConnected (snd (connect env s)) = CONNECTED /\
  calls (snd (connect env s)) = calls s ++ [Start; StorageGet] /\
  listeningForChannelOpenings (snd (connect env s))
  = listeningForChannelOpenings s.
Proof.
  destruct s as [dapp listening status peers history lines clock resolved].
  unfold connect, Transport_connect. run. intros -> -> Hstart Hread.
  rewrite Hstart. run. rewrite Hread. run.
  cbn [length Nat.ltb Nat.leb]. run. rewrite <- app_assoc. repeat split.
Qed.

(** X12, witness: a wallet connects for the first time. *)
Lemma connect_wallet_empty_registry_witness :
  fst (connect all_fine (fresh false [])) = Fulfilled tt /\
  _isConnected (snd (connect all_fine (fresh false []))) = CONNECTED /\
  calls (snd (connect all_fine (fresh false []))) = [Start; StorageGet].
Proof.
  destruct (@connect_wallet_empty_registry all_fine (fresh false [])
              eq_refl eq_refl eq_refl eq_refl) as (H1 & H2 & H3 & _).
  split; [exact H1|]. split; [exact H2|exact H3].
Defined.

(** [connectNewPeer] with the guard up and a collaborator that hands out
    the handshake information. *)
Lemma connectNewPeer_guard_up (env : Env) (s : State) :
  listeningForChannelOpenings s = true ->
  answer (reply env (calls s) GetHandshakeInfo) = Succeeds ->
  calls (snd (connectNewPeer env s))
  = calls s ++ [GetHandshakeInfo;
                Emit P2P_LISTEN_FOR_CHANNEL_OPEN
                     (Some (handshakeInfo env (calls s)))] /\
  listeningForChannelOpenings (snd (connectNewPeer env s)) = true.
Proof.
  destruct s as [dapp listening status peers history lines clock resolved].
  run. intros -> Hinfo. run. rewrite Hinfo. run.
  next_answer; rewrite <- ?app_assoc; split; reflexivity.
Qed.

(** On a dApp with an empty registry, [connect] is its first steps followed
    by [connectNewPeer], on whose promise it waits. *)
Lemma connect_empty_dapp (env : Env) (s : State) :
  isDapp s = true ->
  stored s = [] ->
  answer (reply env (calls s) Start) = Succeeds ->
  answer (reply env (calls s ++ [Start]) StorageGet) = Succeeds ->
  connect env s
  = connectNewPeer env
      (advance_to
         (now s + latency (reply env (calls s) Start)
          + latency (reply env (calls s ++ [Start]) StorageGet))
         (record_call StorageGet
            (record_call Start
               (set_status CONNECTING (record_log LConnect s))))).
Proof.
  intros Hdapp Hempty Hstart Hread. unfold connect.
  rewrite (@connect_prefix env s _ Hstart Hread). rewrite Hempty.
  cbv beta iota delta [length Nat.ltb Nat.leb].
  set (s2 := advance_to _ _).
  assert (Hdapp2 : isDapp s2 = true) by exact Hdapp. clearbody s2.
  unfold bind at 1. unfold bind at 1. unfold read at 1. rewrite Hdapp2.
  destruct (connectNewPeer_frame env s2) as (Ho & _).
  destruct (connectNewPeer env s2) as [o s3]. simpl in Ho. now subst o.
Qed.

(** X13.  After a [connect] that left a dApp waiting for a counterpart, a
    [reconnect] fetches and emits the handshake information again and
    installs no second listener: the guard set by [connect] is up. *)
Theorem reconnect_after_connect (env : Env) (s : State) :
  isDapp s = true ->
  stored s = [] ->
  listeningForChannelOpenings s = false ->
  succeeds env Start ->
  succeeds env StorageGet ->
  succeeds env ListenForChannelOpening ->
  succeeds env GetHandshakeInfo ->
  let s1 := snd (connect env s) in
  let s2 := snd (reconnect env s1) in
  fst (reconnect env s1) = Pending /\
  calls s2 = calls s1 ++ [GetHandshakeInfo;
                          Emit P2P_LISTEN_FOR_CHANNEL_OPEN
                               (Some (handshakeInfo env (calls s1)))] /\
  count_calls is_listenForChannelOpening (calls s2)
  = S (count_calls is_listenForChannelOpening (calls s)).
Proof.
  intros Hdapp Hempty Hflag Hstart Hread Hlisten Hinfo s1 s2.
  subst s2 s1.
  rewrite (@connect_empty_dapp env s Hdapp Hempty (Hstart _) (Hread _)).
  set (s0 := advance_to _ _).
  assert (Hcalls0 : calls s0 = calls s ++ [Start; StorageGet]).
  { unfold s0. simpl. now rewrite <- app_assoc. }
  assert (Hflag0 : listeningForChannelOpenings s0 = false) by exact Hflag.
  assert (Hdapp0 : isDapp s0 = true) by exact Hdapp.
  clearbody s0.
  destruct (@connectNewPeer_fresh env s0 Hflag0 (Hlisten _) (Hinfo _))
    as (_ & Hcalls1 & Hguard1 & _).
  destruct (connectNewPeer_frame env s0) as (_ & _ & Hdapp1 & _).
  cbv zeta in Hcalls1, Hguard1.
  set (s1 := snd (connectNewPeer env s0)) in *.
  rewrite Hdapp0 in Hdapp1.
  assert (Hre : reconnect env s1 = connectNewPeer env s1).
  { unfold reconnect, bind, read. now rewrite Hdapp1. }
  rewrite Hre.
  destruct (@connectNewPeer_guard_up env s1 Hguard1 (Hinfo _)) as (Hcalls2 & _).
  destruct (connectNewPeer_frame env s1) as (Ho & _).
  split; [assumption|]. split; [assumption|].
  rewrite Hcalls2, Hcalls1, Hcalls0. unfold count_calls.
  rewrite !filter_app, !length_app. simpl. lia.
Qed.

(** X13, witness: a fresh dApp connects, then reconnects. *)
Lemma reconnect_after_connect_witness :
  calls (snd (reconnect all_fine (snd (connect all_fine (fresh true [])))))
  = [Start; StorageGet; ListenForChannelOpening; GetHandshakeInfo;
     Emit P2P_LISTEN_FOR_CHANNEL_OPEN (Some "handshake-info");
     GetHandshakeInfo;
     Emit P2P_LISTEN_FOR_CHANNEL_OPEN (Some "handshake-info")].
Proof.
  assert (Hok : forall c, succeeds all_fine c) by (intros c h; reflexivity).
  exact (proj1 (proj2 (@reconnect_after_connect all_fine (fresh true [])
                         eq_refl eq_refl eq_refl
                         (Hok _) (Hok _) (Hok _) (Hok _)))).
Defined.

(** ** The pairing listener, continued *)

(** X14.  Two calls of [connectNewPeer] of which the second starts after
    the listener of the first was accepted install the listener once: the
    first call raises the guard and the second finds it up. *)
Theorem connectNewPeer_twice_in_sequence (env : Env) (s : State) :
  listeningForChannelOpenings s = false ->
  succeeds env ListenForChannelOpening ->
  let s1 := snd (connectNewPeer env s) in
  let s2 := snd (connectNewPeer env s1) in
  count_calls is_listenForChannelOpening (calls s1)
  = S (count_calls is_listenForChannelOpening (calls s)) /\
  count_calls is_listenForChannelOpening (calls s2)
  = S (count_calls is_listenForChannelOpening (calls s)) /\
  listeningForChannelOpenings s2 = true.
Proof.
  intros Hflag Hlisten s1 s2.
  destruct (connectNewPeer_installs_once s Hflag Hlisten) as (Hcount1 & Hguard1).
  fold s1 in Hcount1, Hguard1.
  destruct (connectNewPeer_guarded env s1 Hguard1) as (Hcount2 & Hguard2).
  fold s2 in Hcount2, Hguard2.
  split; [assumption|]. split; [congruence|assumption].
Qed.

(** X14, witness: two calls on a fresh dApp. *)
Lemma connectNewPeer_twice_in_sequence_witness :
  count_calls is_listenForChannelOpening
    (calls (snd (connectNewPeer all_fine
                   (snd (connectNewPeer all_fine (fresh true []))))))
  = 1.
Proof.
  assert (Hok : succeeds all_fine ListenForChannelOpening)
    by (intros h; reflexivity).
  exact (proj1 (proj2 (@connectNewPeer_twice_in_sequence all_fine
                         (fresh true []) eq_refl Hok))).
Defined.

(** With the guard down, [connectNewPeer] calls [listenForChannelOpening]
    once, whatever the answers. *)
Lemma connectNewPeer_guard_down (env : Env) (s : State) :
  listeningForChannelOpenings s = false ->
  count_calls is_listenForChannelOpening (calls (snd (connectNewPeer env s)))
  = S (count_calls is_listenForChannelOpening (calls s)).
Proof.
  destruct s as [dapp listening status peers history lines clock resolved].
  run. intros ->. run. unfold count_calls.
  repeat next_answer; rewrite ?filter_app, ?length_app; simpl; lia.
Qed.

(** X15.  The promise of [connectNewPeer] is never rejected: whatever the
    collaborators answer, the call is left pending.  When
    [listenForChannelOpening] fails, the failure is lost: it is not even
    logged, the handshake information is neither fetched nor emitted, and
    the guard stays down, so that the next call tries to install the
    listener again. *)
Theorem connectNewPeer_listener_failure (env : Env) (s : State) :
  fst (connectNewPeer env s) = Pending /\
  forall e,
    listeningForChannelOpenings s = false ->
    answer (reply env (calls s) ListenForChannelOpening) = Fails e ->
    let s1 := snd (connectNewPeer env s) in
    calls s1 = calls s ++ [ListenForChannelOpening] /\
    logged s1 = logged s ++ [LConnectNewPeer] /\
    listeningForChannelOpenings s1 = false /\
    count_calls is_listenForChannelOpening (calls (snd (connectNewPeer env s1)))
    = S (count_calls is_listenForChannelOpening (calls s1)).
Proof.
  split; [apply connectNewPeer_frame|].
  intros e Hflag Hlisten s1.
  assert (Hfirst : calls s1 = calls s ++ [ListenForChannelOpening] /\
                   logged s1 = logged s ++ [LConnectNewPeer] /\
                   listeningForChannelOpenings s1 = false).
  { subst s1. revert Hflag Hlisten.
    destruct s as [dapp listening status peers history lines clock resolved].
    run. intros -> Hlisten. run. rewrite Hlisten. run. repeat split. }
  destruct Hfirst as (Hcalls & Hlogged & Hguard).
  split; [assumption|]. split; [assumption|]. split; [assumption|].
  now apply connectNewPeer_guard_down.
Qed.

(** X15, witness: the client refuses the listener, twice. *)
Lemma connectNewPeer_listener_failure_witness :
  let env := refusing is_listenForChannelOpening in
  calls (snd (connectNewPeer env (fresh true []))) = [ListenForChannelOpening] /\
  listeningForChannelOpenings (snd (connectNewPeer env (fresh true []))) = false.
Proof.
  destruct (proj2 (@connectNewPeer_listener_failure
                     (refusing is_listenForChannelOpening) (fresh true []))
              (Error "refused") eq_refl eq_refl) as (H1 & _ & H3 & _).
  split; [exact H1|exact H3].
Defined.

(** ** The channel-opening callback, continued *)

(** The callback for a key that the registry holds. *)
Lemma channelOpeningCallback_known (env : Env) (pk : string) (s : State) :
  readable env s ->
  known pk (stored s) = true ->
  fst (channelOpeningCallback env pk s) = Fulfilled tt /\
  calls (snd (channelOpeningCallback env pk s))
  = calls s ++ [StorageGet; Emit P2P_CHANNEL_CONNECT_SUCCESS None] /\
  stored (snd (channelOpeningCallback env pk s)) = stored s /\
  pairingResolved (snd (channelOpeningCallback env pk s)) = true.
Proof.
  destruct s as [dapp listening status peers history lines clock resolved].
  run. intros Hread Hknown. rewrite Hread. run. rewrite Hknown. run.
  next_answer; rewrite <- ?app_assoc; repeat split.
Qed.

(** The callback for a new key when the write and the listen setup are
    accepted. *)
Lemma channelOpeningCallback_new (env : Env) (pk : string) (s : State) :
  readable env s ->
  known pk (stored s) = false ->
  answer (reply env (calls s ++ [StorageGet])
            (StorageSet (stored s ++ [mkPeer "" pk ""]))) = Succeeds ->
  answer (reply env (calls s ++ [StorageGet;
                                 StorageSet (stored s ++ [mkPeer "" pk ""])])
            (ListenForEncryptedMessage pk)) = Succeeds ->
  fst (channelOpeningCallback env pk s) = Fulfilled tt /\
  calls (snd (channelOpeningCallback env pk s))
  = calls s ++ [StorageGet; StorageSet (stored s ++ [mkPeer "" pk ""]);
                ListenForEncryptedMessage pk;
                Emit P2P_CHANNEL_CONNECT_SUCCESS None] /\
  stored (snd (channelOpeningCallback env pk s))
  = stored s ++ [mkPeer "" pk ""] /\
  pairingResolved (snd (channelOpeningCallback env pk s)) = true.
Proof.
  destruct s as [dapp listening status peers history lines clock resolved].
  run. intros Hread Hknown Hwrite Hlisten.
  rewrite Hread. run. rewrite Hknown. run. rewrite Hwrite. run.
  rewrite <- !app_assoc. simpl app. rewrite Hlisten. run.
  next_answer; rewrite <- ?app_assoc; repeat split.
Qed.

(** X16.  For a key that the registry holds, the callback neither writes
    nor sets up listening: after the read it emits the success event and
    resolves the promise of [connectNewPeer]. *)
Theorem channelOpeningCallback_known_key (env : Env) (pk : string)
    (s : State) :
  readable env s ->
  In pk (map pubKey (stored s)) ->
  let s' := snd (channelOpeningCallback env pk s) in
  fst (channelOpeningCallback env pk s) = Fulfilled tt /\
  calls s' = calls s ++ [StorageGet; Emit P2P_CHANNEL_CONNECT_SUCCESS None] /\
  stored s' = stored s /\
  pairingResolved s' = true.
Proof.
  intros Hread Hknown s'. apply known_spec in Hknown.
  now apply channelOpeningCallback_known.
Qed.

(** X16, witness: Alice, already known, opens a channel again. *)
Lemma channelOpeningCallback_known_key_witness :
  calls (snd (channelOpeningCallback all_fine "pkA" (fresh true [alice])))
  = [StorageGet; Emit P2P_CHANNEL_CONNECT_SUCCESS None].
Proof.
  assert (Hread : readable all_fine (fresh true [alice])) by reflexivity.
  assert (Hknown : In "pkA" (map pubKey (stored (fresh true [alice]))))
    by (left; reflexivity).
  exact (proj1 (proj2 (@channelOpeningCallback_known_key all_fine "pkA"
                         (fresh true [alice]) Hread Hknown))).
Defined.

(** X17.  For a new key, when the listen setup fails the callback is
    rejected with that failure: the success event is not emitted and the
    promise of [connectNewPeer] is not resolved, so a [connect] waiting on
    it keeps waiting; yet the peer has been stored if the write was
    accepted. *)
Theorem channelOpeningCallback_listen_failure (env : Env) (pk : string)
    (s : State) (e : exn) :
  readable env s ->
  ~ In pk (map pubKey (stored s)) ->
  answer (reply env (calls s ++ [StorageGet])
            (StorageSet (stored s ++ [mkPeer "" pk ""]))) = Succeeds ->
  answer (reply env (calls s ++ [StorageGet;
                                 StorageSet (stored s ++ [mkPeer "" pk ""])])
            (ListenForEncryptedMessage pk)) = Fails e ->
  let s' := snd (channelOpeningCallback env pk s) in
  fst (channelOpeningCallback env pk s) = Rejected e /\
  calls s' = calls s ++ [StorageGet;
                         StorageSet (stored s ++ [mkPeer "" pk ""]);
                         ListenForEncryptedMessage pk] /\
  pairingResolved s' = pairingResolved s /\
  stored s' = stored s ++ [mkPeer "" pk ""].
Proof.
  destruct s as [dapp listening status peers history lines clock resolved].
  run. intros Hread Habsent Hwrite Hlisten. apply known_false in Habsent.
  rewrite Hread. run. rewrite Habsent. run. rewrite Hwrite. run.
  rewrite <- !app_assoc. simpl app. rewrite Hlisten. run. repeat split.
Qed.

(** X17, witness: Carol pairs while listening cannot be set up. *)
Lemma channelOpeningCallback_listen_failure_witness :
  let env := refusing is_listenForEncryptedMessage in
  fst (channelOpeningCallback env "pkC" (fresh true [alice]))
  = Rejected (Error "refused") /\
  pairingResolved (snd (channelOpeningCallback env "pkC" (fresh true [alice])))
  = false /\
  stored (snd (channelOpeningCallback env "pkC" (fresh true [alice])))
  = [alice; mkPeer "" "pkC" ""].
Proof.
  assert (Hread : readable (refusing is_listenForEncryptedMessage)
                    (fresh true [alice])) by reflexivity.
  assert (Habsent : ~ In "pkC" (map pubKey (stored (fresh true [alice])))).
  { simpl. intros [H|[]]; discriminate. }
  destruct (@channelOpeningCallback_listen_failure
              (refusing is_listenForEncryptedMessage) "pkC"
              (fresh true [alice]) (Error "refused") Hread Habsent
              eq_refl eq_refl) as (H1 & _ & H3 & H4).
  split; [exact H1|]. split; [exact H3|exact H4].
Defined.

Lemma count_calls_app (f : Call -> bool) (l1 l2 : list Call) :
  count_calls f (l1 ++ l2) = count_calls f l1 + count_calls f l2.
Proof. unfold count_calls. now rewrite filter_app, length_app. Qed.

Lemma count_calls_none (f : Call -> bool) (cs : list Call) :
  (forall c, In c cs -> f c = false) -> count_calls f cs = 0.
Proof.
  unfold count_calls. induction cs as [|c cs IH]; simpl; intros H.
  - reflexivity.
  - rewrite (H c (or_introl eq_refl)). apply IH. intros c' Hin. apply H.
    now right.
Qed.

(** X18.  When the same new key is announced twice in sequence, the
    second run of the callback starting only after the first run has
    finished and its write has reached the store, and the storage and the
    client accept every call, the peer is stored once and listening for
    its key is set up once: the second run of the callback finds the key
    known.  Runs that overlap are outside this statement: the callback
    reads the registry before it suspends (line 84) and does not wait for
    its write (lines 87 to 89). *)
Theorem channelOpeningCallback_twice_in_sequence (env : Env) (pk : string) (s : State) :
  succeeds env StorageGet ->
  (forall peers, succeeds env (StorageSet peers)) ->
  succeeds env (ListenForEncryptedMessage pk) ->
  ~ In pk (map pubKey (stored s)) ->
  let s1 := snd (channelOpeningCallback env pk s) in
  let s2 := snd (channelOpeningCallback env pk s1) in
  stored s2 = stored s ++ [mkPeer "" pk ""] /\
  count_key pk (stored s2) = 1 /\
  count_calls (is_listenFor pk) (calls s2)
  = S (count_calls (is_listenFor pk) (calls s)).
Proof.
  intros Hread Hwrite Hlisten Habsent s1 s2.
  assert (Hunknown : known pk (stored s) = false) by now apply known_false.
  destruct (@channelOpeningCallback_new env pk s (Hread _) Hunknown
              (Hwrite _ _) (Hlisten _)) as (_ & Hcalls1 & Hstored1 & _).
  fold s1 in Hcalls1, Hstored1.
  assert (Hknown1 : known pk (stored s1) = true).
  { rewrite Hstored1. apply known_spec. rewrite map_app. apply in_or_app.
    right. now left. }
  destruct (@channelOpeningCallback_known env pk s1 (Hread _) Hknown1)
    as (_ & Hcalls2 & Hstored2 & _).
  fold s2 in Hcalls2, Hstored2.
  split; [congruence|]. split.
  - rewrite Hstored2, Hstored1, count_key_app, (count_key_unknown _ _ Hunknown).
    unfold count_key. simpl.
    destruct (string_dec pk pk); [reflexivity|congruence].
  - rewrite Hcalls2, Hcalls1, !count_calls_app. unfold count_calls. simpl.
    rewrite String.eqb_refl. simpl. lia.
Qed.

(** X18, witness: Carol announces herself twice, the second time after
    the first run of the callback is over. *)
Lemma channelOpeningCallback_twice_in_sequence_witness :
  stored (snd (channelOpeningCallback all_fine "pkC"
                 (snd (channelOpeningCallback all_fine "pkC"
                         (fresh true [alice])))))
  = [alice; mkPeer "" "pkC" ""].
Proof.
  assert (Hok : forall c, succeeds all_fine c) by (intros c h; reflexivity).
  assert (Habsent : ~ In "pkC" (map pubKey (stored (fresh true [alice])))).
  { simpl. intros [H|[]]; discriminate. }
  exact (proj1 (@channelOpeningCallback_twice_in_sequence all_fine "pkC"
                  (fresh true [alice]) (Hok _) (fun peers => Hok _) (Hok _)
                  Habsent)).
Defined.

(** X19.  When the storage rejects the writes, the callback does not
    remember the key it was given: announced twice, the same key gets
    listening set up twice, and is still not stored. *)
Theorem channelOpeningCallback_twice_unsaved (env : Env) (pk : string)
    (s : State) (e : exn) :
  succeeds env StorageGet ->
  (forall h peers, answer (reply env h (StorageSet peers)) = Fails e) ->
  succeeds env (ListenForEncryptedMessage pk) ->
  ~ In pk (map pubKey (stored s)) ->
  let s1 := snd (channelOpeningCallback env pk s) in
  let s2 := snd (channelOpeningCallback env pk s1) in
  stored s2 = stored s /\
  count_calls (is_listenFor pk) (calls s2)
  = S (S (count_calls (is_listenFor pk) (calls s))).
Proof.
  intros Hread Hwrite Hlisten Habsent s1 s2.
  assert (Hunknown : known pk (stored s) = false) by now apply known_false.
  destruct (@channelOpeningCallback_write_rejected env pk s e (Hread _)
              Hunknown (Hwrite _ _)) as (Hstored1 & _ & _ & Hrun1).
  destruct (Hrun1 (Hlisten _)) as (_ & Hcalls1).
  cbv zeta in Hstored1, Hcalls1. fold s1 in Hstored1, Hcalls1.
  assert (Hunknown1 : known pk (stored s1) = false) by now rewrite Hstored1.
  destruct (@channelOpeningCallback_write_rejected env pk s1 e (Hread _)
              Hunknown1 (Hwrite _ _)) as (Hstored2 & _ & _ & Hrun2).
  destruct (Hrun2 (Hlisten _)) as (_ & Hcalls2).
  cbv zeta in Hstored2, Hcalls2. fold s2 in Hstored2, Hcalls2.
  split; [congruence|].
  rewrite Hcalls2, Hcalls1, !count_calls_app. unfold count_calls. simpl.
  rewrite String.eqb_refl. simpl. lia.
Qed.

(** X19, witness: Carol announces herself twice to a transport whose
    storage is full. *)
Lemma channelOpeningCallback_twice_unsaved_witness :
  calls (snd (channelOpeningCallback disk_full "pkC"
                (snd (channelOpeningCallback disk_full "pkC"
                        (fresh true [alice])))))
  = [StorageGet; StorageSet [alice; mkPeer "" "pkC" ""];
     ListenForEncryptedMessage "pkC"; Emit P2P_CHANNEL_CONNECT_SUCCESS None;
     StorageGet; StorageSet [alice; mkPeer "" "pkC" ""];
     ListenForEncryptedMessage "pkC"; Emit P2P_CHANNEL_CONNECT_SUCCESS None] /\
  count_calls (is_listenFor "pkC")
    (calls (snd (channelOpeningCallback disk_full "pkC"
                   (snd (channelOpeningCallback disk_full "pkC"
                           (fresh true [alice]))))))
  = 2.
Proof.
  assert (Hread : succeeds disk_full StorageGet) by (intros h; reflexivity).
  assert (Hwrite : forall h peers,
            answer (reply disk_full h (StorageSet peers))
            = Fails (Error "quota exceeded"))
    by (intros h peers; reflexivity).
  assert (Hlisten : succeeds disk_full (ListenForEncryptedMessage "pkC"))
    by (intros h; reflexivity).
  assert (Habsent : ~ In "pkC" (map pubKey (stored (fresh true [alice])))).
  { simpl. intros [H|[]]; discriminate. }
  split; [reflexivity|].
  exact (proj2 (@channelOpeningCallback_twice_unsaved disk_full "pkC"
                  (fresh true [alice]) (Error "quota exceeded")
                  Hread Hwrite Hlisten Habsent)).
Defined.

(** ** What the operations leave alone *)

Lemma await_storage_get_hangs (env : Env) (s : State) :
  answer (reply env (calls s) StorageGet) = Hangs ->
  await (storage_get env) s = (Pending, record_call StorageGet s).
Proof.
  unfold await, storage_get, collaborator, await_promise.
  intros H. rewrite H. reflexivity.
Qed.

(** A broadcast over [peers]: one [sendMessage] per peer is recorded and
    nothing else of the state moves but the clock. *)
Lemma broadcast_frame (env : Env) (message : string) (peers : list Peer)
    (s : State) :
  let s' := snd (broadcast env message peers s) in
  calls s' = calls s ++ map (fun peer => SendMessage (pubKey peer) message) peers /\
  _isConnected s' = _isConnected s /\
  listeningForChannelOpenings s' = listeningForChannelOpenings s /\
  stored s' = stored s.
Proof.
  unfold broadcast, bind.
  rewrite (map_async_plain env (fun peer => SendMessage (pubKey peer) message)).
  set (sends := map _ peers).
  destruct (await_Promise_all (now s) (replies env (calls s) sends)
              (record_calls sends s)) as (o & t' & Hrun & _).
  rewrite Hrun.
  destruct (frame_record_calls sends s) as (_ & Hguard & Hstatus & Hstored & _).
  pose proof (calls_record_calls sends s) as Hcalls.
  destruct o; simpl; repeat split; assumption.
Qed.

(** [send], whatever the recipient and the answers: the read and
    [sendMessage] calls are recorded, and the state field, the guard and
    the stored list are left as they were. *)
Lemma send_frame (env : Env) (message : string) (recipient : option string)
    (s : State) :
  let s' := snd (send env message recipient s) in
  (exists cs, calls s' = calls s ++ StorageGet :: cs /\
              forall c, In c cs -> is_sendMessage c = true) /\
  _isConnected s' = _isConnected s /\
  listeningForChannelOpenings s' = listeningForChannelOpenings s /\
  stored s' = stored s.
Proof.
  assert (Hsends : forall peers c,
            In c (map (fun peer => SendMessage (pubKey peer) message) peers) ->
            is_sendMessage c = true).
  { intros peers c Hin. apply in_map_iff in Hin.
    destruct Hin as (q & <- & _). reflexivity. }
  assert (Hbroadcast : forall s1,
            calls s1 = calls s ++ [StorageGet] ->
            _isConnected s1 = _isConnected s ->
            listeningForChannelOpenings s1 = listeningForChannelOpenings s ->
            stored s1 = stored s ->
            let s' := snd (broadcast env message (stored s) s1) in
            (exists cs, calls s' = calls s ++ StorageGet :: cs /\
                        forall c, In c cs -> is_sendMessage c = true) /\
            _isConnected s' = _isConnected s /\
            listeningForChannelOpenings s' = listeningForChannelOpenings s /\
            stored s' = stored s).
  { intros s1 H1 H2 H3 H4.
    destruct (broadcast_frame env message (stored s) s1)
      as (Hc & Hst & Hg & Hs).
    cbv zeta. rewrite Hc, Hst, Hg, Hs, H1, H2, H3, H4, <- app_assoc.
    split; [|repeat split].
    eexists. split; [reflexivity|apply Hsends]. }
  unfold send, bind.
  destruct (answer (reply env (calls s) StorageGet)) eqn:Hread.
  - rewrite (@await_storage_get env s Hread).
    set (s1 := advance_to _ _).
    destruct recipient as [r|]; [|now apply Hbroadcast].
    destruct (truthy (Some r)); [|now apply Hbroadcast].
    destruct (known r (stored s)); simpl.
    + unfold client_sendMessage.
      destruct (await_plain env (SendMessage r message) s1)
        as (_ & Hc & Hs & _ & Hst & Hg).
      rewrite Hc, Hs, Hst, Hg. simpl. rewrite <- app_assoc.
      split; [|repeat split].
      exists [SendMessage r message]. split; [reflexivity|].
      intros c [<-|[]]. reflexivity.
    + split; [|repeat split]. exists []. split; [reflexivity|intros c []].
  - rewrite (@await_storage_get_fails env s e Hread).
    split; [|repeat split]. exists []. split; [reflexivity|intros c []].
  - rewrite (@await_storage_get_hangs env s Hread).
    split; [|repeat split]. exists []. split; [reflexivity|intros c []].
Qed.

(** X20.  Apart from [connect], [reconnect] and [connectNewPeer], no
    operation touches the state field or the listener guard: [getPeers],
    [addPeer], [removePeer], [removeAllPeers], [send] and the
    channel-opening callback leave both as they find them, whatever the
    collaborators answer. *)
Theorem state_field_and_guard_untouched (env : Env) (s : State) :
  let unchanged (s' : State) :=
    _isConnected s' = _isConnected s /\
    listeningForChannelOpenings s' = listeningForChannelOpenings s in
  unchanged (snd (getPeers env s)) /\
  (forall p, unchanged (snd (addPeer env p s))) /\
  (forall p, unchanged (snd (removePeer env p s))) /\
  unchanged (snd (removeAllPeers env s)) /\
  (forall message recipient, unchanged (snd (send env message recipient s))) /\
  (forall pk, unchanged (snd (channelOpeningCallback env pk s))).
Proof.
  cbv zeta.
  split; [|split; [|split; [|split; [|split]]]].
  - destruct s as [dapp listening status peers history lines clock resolved].
    unfold getPeers. run. repeat next_answer; split; reflexivity.
  - intros p.
    destruct s as [dapp listening status peers history lines clock resolved].
    run. next_answer; try (split; reflexivity).
    destruct (known (pubKey p) peers); run; repeat next_answer;
      split; reflexivity.
  - intros p.
    destruct s as [dapp listening status peers history lines clock resolved].
    run. repeat next_answer; split; reflexivity.
  - destruct s as [dapp listening status peers history lines clock resolved].
    run. repeat next_answer; split; reflexivity.
  - intros message recipient.
    destruct (send_frame env message recipient s) as (_ & Hst & Hg & _).
    split; assumption.
  - intros pk. destruct (channelOpeningCallback_frame env pk s) as (Hst & Hg).
    split; assumption.
Qed.

(** The calls of [connect] over a non-empty registry, whatever the listen
    setups answer. *)
Lemma connect_known_calls (env : Env) (s : State) :
  stored s <> [] ->
  answer (reply env (calls s) Start) = Succeeds ->
  answer (reply env (calls s ++ [Start]) StorageGet) = Succeeds ->
  calls (snd (connect env s))
  = calls s ++ Start :: StorageGet
      :: map (fun peer => ListenForEncryptedMessage (pubKey peer)) (stored s) /\
  stored (snd (connect env s)) = stored s.
Proof.
  intros Hne Hstart Hread.
  destruct (connect env s) as [o s'] eqn:Hc. simpl snd.
  unfold connect in Hc. rewrite (@connect_prefix env s _ Hstart Hread) in Hc.
  assert (Hlen : (0 <? length (stored s)) = true).
  { destruct (stored s); [contradiction|reflexivity]. }
  rewrite Hlen in Hc. unfold bind, log, modify, listen in Hc.
  unfold client_listenForEncryptedMessage in Hc.
  rewrite (map_async_plain env
             (fun peer => ListenForEncryptedMessage (pubKey peer))) in Hc.
  set (listens := map _ (stored s)) in *.
  set (s0 := record_log _ _) in Hc.
  assert (Hcalls : calls (record_calls listens s0)
                   = calls s ++ Start :: StorageGet :: listens).
  { rewrite calls_record_calls. unfold s0. simpl. now rewrite <- !app_assoc. }
  destruct (await_Promise_all (now s0) (replies env (calls s0) listens)
              (record_calls listens s0)) as (o1 & t' & Hrun & _).
  rewrite Hrun in Hc.
  assert (Hstored : stored (record_calls listens s0) = stored s).
  { destruct (frame_record_calls listens s0) as (_ & _ & _ & -> & _).
    reflexivity. }
  destruct o1; simpl in Hc; inversion Hc; subst o s'; split; assumption.
Qed.

Lemma connectNewPeer_opens_no_channel (env : Env) (s : State) :
  count_calls is_openChannel (calls (snd (connectNewPeer env s)))
  = count_calls is_openChannel (calls s).
Proof.
  destruct s as [dapp [|] status peers history lines clock resolved]; run;
    repeat next_answer; rewrite ?count_calls_app; unfold count_calls; simpl;
    lia.
Qed.

Lemma connect_opens_no_channel (env : Env) (s : State) :
  count_calls is_openChannel (calls (snd (connect env s)))
  = count_calls is_openChannel (calls s).
Proof.
  destruct (answer (reply env (calls s) Start)) eqn:Hstart;
    [destruct (answer (reply env (calls s ++ [Start]) StorageGet)) eqn:Hread|..].
  - destruct (stored s) as [|p0 peers0] eqn:Hstored.
    + unfold connect. rewrite (@connect_prefix env s _ Hstart Hread).
      rewrite Hstored. cbv beta iota delta [length Nat.ltb Nat.leb].
      set (s2 := advance_to _ _).
      assert (Hcalls2 : calls s2 = calls s ++ [Start; StorageGet]).
      { unfold s2. simpl. now rewrite <- app_assoc. }
      clearbody s2. unfold bind at 1. unfold bind at 1. unfold read at 1.
      destruct (isDapp s2).
      * pose proof (connectNewPeer_opens_no_channel env s2) as Hcount.
        destruct (connectNewPeer_frame env s2) as (Ho & _).
        destruct (connectNewPeer env s2) as [o s3]. simpl in Ho, Hcount.
        subst o. simpl. rewrite Hcount, Hcalls2, count_calls_app.
        unfold count_calls at 2. simpl. lia.
      * simpl. rewrite Hcalls2, count_calls_app.
        unfold count_calls at 2. simpl. lia.
    + destruct (@connect_known_calls env s) as (-> & _);
        [rewrite Hstored; discriminate|assumption..|].
      rewrite count_calls_app.
      replace (count_calls is_openChannel
                 (Start :: StorageGet
                  :: map (fun peer => ListenForEncryptedMessage (pubKey peer))
                       (stored s))) with 0; [lia|].
      symmetry. apply count_calls_none.
      intros c [<-|[<-|Hin]]; try reflexivity.
      apply in_map_iff in Hin. destruct Hin as (q & <- & _). reflexivity.
  - revert Hstart Hread.
    destruct s as [dapp listening status peers history lines clock resolved].
    unfold connect. run. intros -> ->. run.
    rewrite <- app_assoc, count_calls_app. unfold count_calls at 2. simpl. lia.
  - revert Hstart Hread.
    destruct s as [dapp listening status peers history lines clock resolved].
    unfold connect. run. intros -> ->. run.
    rewrite <- app_assoc, count_calls_app. unfold count_calls at 2. simpl. lia.
  - revert Hstart.
    destruct s as [dapp listening status peers history lines clock resolved].
    unfold connect. run. intros ->. run.
    rewrite count_calls_app. unfold count_calls at 2. simpl. lia.
  - revert Hstart.
    destruct s as [dapp listening status peers history lines clock resolved].
    unfold connect. run. intros ->. run.
    rewrite count_calls_app. unfold count_calls at 2. simpl. lia.
Qed.

(** X21.  Only [addPeer] opens channels.  [connect] (which only sets up
    listening for the peers it knows), [reconnect], [connectNewPeer], the
    channel-opening callback, [removePeer], [removeAllPeers], [getPeers]
    and [send] never call [openChannel], whatever the collaborators
    answer; [addPeer] calls it at most once, and not at all for a key the
    registry holds. *)
Theorem openChannel_only_in_addPeer (env : Env) (s : State) :
  let opened (s' : State) :=
    count_calls is_openChannel (calls s')
    - count_calls is_openChannel (calls s) in
  count_calls is_openChannel (calls (snd (connect env s)))
  = count_calls is_openChannel (calls s) /\
  count_calls is_openChannel (calls (snd (reconnect env s)))
  = count_calls is_openChannel (calls s) /\
  count_calls is_openChannel (calls (snd (connectNewPeer env s)))
  = count_calls is_openChannel (calls s) /\
  (forall pk,
     count_calls is_openChannel (calls (snd (channelOpeningCallback env pk s)))
     = count_calls is_openChannel (calls s)) /\
  (forall p,
     count_calls is_openChannel (calls (snd (removePeer env p s)))
     = count_calls is_openChannel (calls s)) /\
  count_calls is_openChannel (calls (snd (removeAllPeers env s)))
  = count_calls is_openChannel (calls s) /\
  count_calls is_openChannel (calls (snd (getPeers env s)))
  = count_calls is_openChannel (calls s) /\
  (forall message recipient,
     count_calls is_openChannel (calls (snd (send env message recipient s)))
     = count_calls is_openChannel (calls s)) /\
  (forall p,
     opened (snd (addPeer env p s)) <= 1 /\
     count_calls is_openChannel (calls s)
     <= count_calls is_openChannel (calls (snd (addPeer env p s))) /\
     (In (pubKey p) (map pubKey (stored s)) ->
      opened (snd (addPeer env p s)) = 0)).
Proof.
  cbv zeta.
  split; [apply connect_opens_no_channel|].
  split.
  { unfold reconnect, bind, read. simpl. destruct (isDapp s);
      [apply connectNewPeer_opens_no_channel|reflexivity]. }
  split; [apply connectNewPeer_opens_no_channel|].
  split.
  { intros pk.
    destruct s as [dapp listening status peers history lines clock resolved].
    run. next_answer; rewrite ?count_calls_app; unfold count_calls; simpl;
      try lia.
    destruct (known pk peers); run; repeat next_answer;
      unfold count_calls; simpl; rewrite ?filter_app, ?length_app; simpl;
      lia. }
  split.
  { intros p.
    destruct s as [dapp listening status peers history lines clock resolved].
    run. repeat next_answer; rewrite ?count_calls_app; unfold count_calls;
      simpl; lia. }
  split.
  { destruct s as [dapp listening status peers history lines clock resolved].
    run. repeat next_answer; rewrite ?count_calls_app; unfold count_calls;
      simpl; lia. }
  split.
  { destruct s as [dapp listening status peers history lines clock resolved].
    unfold getPeers. run.
    repeat next_answer; rewrite ?count_calls_app; unfold count_calls;
      simpl; lia. }
  split.
  { intros message recipient.
    destruct (send_frame env message recipient s)
      as ((cs & Hcalls & Hsends) & _).
    rewrite Hcalls, count_calls_app.
    replace (count_calls is_openChannel (StorageGet :: cs)) with 0; [lia|].
    symmetry. apply count_calls_none. intros c [<-|Hin]; [reflexivity|].
    specialize (Hsends c Hin). now destruct c. }
  intros p.
  destruct s as [dapp listening status peers history lines clock resolved].
  run. next_answer;
    try (rewrite ?count_calls_app; unfold count_calls; simpl;
         repeat split; intros; lia).
  destruct (known (pubKey p) peers) eqn:Hknown; run.
  - rewrite ?count_calls_app. unfold count_calls. simpl.
    repeat split; intros; lia.
  - repeat next_answer; unfold count_calls; simpl;
      rewrite ?filter_app, ?length_app; simpl;
      (split; [lia|split; [lia|]]); intros Hin; apply known_spec in Hin;
      congruence.
Qed.

(** [connect] never writes the registry. *)
Lemma connect_stored (env : Env) (s : State) :
  stored (snd (connect env s)) = stored s.
Proof.
  destruct (answer (reply env (calls s) Start)) eqn:Hstart;
    [destruct (answer (reply env (calls s ++ [Start]) StorageGet)) eqn:Hread|..].
  - destruct (stored s) as [|p0 peers0] eqn:Hstored.
    + unfold connect. rewrite (@connect_prefix env s _ Hstart Hread).
      rewrite Hstored. cbv beta iota delta [length Nat.ltb Nat.leb].
      set (s2 := advance_to _ _).
      assert (Hstored2 : stored s2 = []).
      { unfold s2. simpl. exact Hstored. }
      clearbody s2. unfold bind at 1. unfold bind at 1. unfold read at 1.
      destruct (isDapp s2).
      * destruct (connectNewPeer_frame env s2) as (Ho & _ & _ & Hkeep).
        destruct (connectNewPeer env s2) as [o s3]. simpl in Ho, Hkeep.
        subst o. simpl. congruence.
      * simpl. exact Hstored2.
    + rewrite <- Hstored.
      apply (@connect_known_calls env s);
        [rewrite Hstored; discriminate|assumption..].
  - revert Hstart Hread.
    destruct s as [dapp listening status peers history lines clock resolved].
    unfold connect. run. intros -> ->. run. reflexivity.
  - revert Hstart Hread.
    destruct s as [dapp listening status peers history lines clock resolved].
    unfold connect. run. intros -> ->. run. reflexivity.
  - revert Hstart.
    destruct s as [dapp listening status peers history lines clock resolved].
    unfold connect. run. intros ->. run. reflexivity.
  - revert Hstart.
    destruct s as [dapp listening status peers history lines clock resolved].
    unfold connect. run. intros ->. run. reflexivity.
Qed.

(** X22.  The registry holds at most one record per key, and every
    operation of the transport keeps it so: [addPeer] and the
    channel-opening callback add a record only for a key that is not there,
    [removePeer] and [removeAllPeers] only take records away, and
    [connect], [reconnect], [connectNewPeer], [getPeers] and [send] leave
    the registry as it is. *)
Theorem registry_keys_stay_unique (env : Env) (s : State) :
  unique_keys (stored s) ->
  unique_keys (stored (snd (connect env s))) /\
  unique_keys (stored (snd (reconnect env s))) /\
  unique_keys (stored (snd (connectNewPeer env s))) /\
  unique_keys (stored (snd (getPeers env s))) /\
  (forall p, unique_keys (stored (snd (addPeer env p s)))) /\
  (forall p, unique_keys (stored (snd (removePeer env p s)))) /\
  unique_keys (stored (snd (removeAllPeers env s))) /\
  (forall message recipient,
     unique_keys (stored (snd (send env message recipient s)))) /\
  (forall pk, unique_keys (stored (snd (channelOpeningCallback env pk s)))).
Proof.
  intros Huniq.
  destruct (@unique_keys_preserved env s Huniq)
    as (Hadd & Hremove & Hclear & Hcb).
  split; [now rewrite connect_stored|].
  split.
  { unfold reconnect, bind, read. simpl. destruct (isDapp s); [|assumption].
    destruct (connectNewPeer_frame env s) as (_ & _ & _ & ->). assumption. }
  split.
  { destruct (connectNewPeer_frame env s) as (_ & _ & _ & ->). assumption. }
  split.
  { assert (Hkeep : stored (snd (getPeers env s)) = stored s).
    { destruct s as [dapp listening status peers history lines clock resolved].
      unfold getPeers. run. repeat next_answer; reflexivity. }
    now rewrite Hkeep. }
  split; [assumption|].
  split; [assumption|].
  split; [assumption|].
  split; [|assumption].
  intros message recipient.
  destruct (send_frame env message recipient s) as (_ & _ & _ & ->).
  assumption.
Qed.

Lemma registry_keys_stay_unique_witness :
  unique_keys (stored (fresh true [alice; bob])) /\
  unique_keys (stored (snd (addPeer all_fine carol (fresh true [alice; bob])))) /\
  unique_keys (stored (snd (addPeer all_fine bob (fresh true [alice; bob])))) /\
  unique_keys
    (stored (snd (channelOpeningCallback all_fine "pkA"
                    (fresh true [alice; bob])))).
Proof.
  assert (Huniq : unique_keys (stored (fresh true [alice; bob]))).
  { unfold unique_keys. simpl.
    repeat constructor; simpl; intuition discriminate. }
  split; [exact Huniq|].
  destruct (@registry_keys_stay_unique all_fine (fresh true [alice; bob]) Huniq)
    as (_ & _ & _ & _ & Hadd & _ & _ & _ & Hcb).
  split; [apply Hadd|]. split; [apply Hadd|apply Hcb].
Defined.

(** X23.  Within each enumeration of the message schema the wire strings
    are pairwise distinct, so the string of a message's [type] field
    determines the message type.  Across enumerations they are not: the
    permission scope [OPERATION_REQUEST] and the message type
    [OperationRequest] are both written "operation_request", and that is
    the only string the two enumerations share. *)
Theorem wire_values_distinct :
  (forall a b, MessageType_value a = MessageType_value b -> a = b) /\
  (forall a b, PermissionScope_value a = PermissionScope_value b -> a = b) /\
  (forall a b, NetworkType_value a = NetworkType_value b -> a = b) /\
  (forall scope type,
     PermissionScope_value scope = MessageType_value type <->
     scope = OPERATION_REQUEST /\ type = OperationRequest).
Proof.
  split; [|split; [|split]].
  - intros [] []; simpl; intros H; solve [reflexivity|discriminate H].
  - intros [] []; simpl; intros H; solve [reflexivity|discriminate H].
  - intros [] []; simpl; intros H; solve [reflexivity|discriminate H].
  - intros [] []; simpl; split; intros H;
      solve [split; reflexivity|discriminate H
            |destruct H as [H1 H2]; discriminate].
Qed.

(** X10.  A recipient given as the empty string is falsy, so [send] treats
    it as a recipient left out: after a successful read the message goes to
    every stored peer, in registry order, whether or not a record carries
    the empty key. *)
Theorem send_empty_recipient_reaches_all (env : Env) (message : string)
    (s : State) :
  readable env s ->
  send env message (Some "") s = send env message None s /\
  calls (snd (send env message (Some "") s))
  = calls s ++ StorageGet
      :: map (fun peer => SendMessage (pubKey peer) message) (stored s).
Proof.
  intros Hread. split; [reflexivity|].
  unfold send, bind. rewrite (@await_storage_get env s Hread).
  cbv beta iota delta [truthy String.eqb negb].
  destruct (broadcast_frame env message (stored s)
              (advance_to (read_done env s) (record_call StorageGet s)))
    as (Hcalls & _).
  rewrite Hcalls. simpl. now rewrite <- app_assoc.
Qed.

Lemma send_empty_recipient_reaches_all_witness :
  readable all_fine (fresh true [alice; bob]) /\
  calls (snd (send all_fine "hello" (Some "") (fresh true [alice; bob])))
  = [StorageGet; SendMessage "pkA" "hello"; SendMessage "pkB" "hello"].
Proof.
  split; [reflexivity|].
  exact (proj2 (@send_empty_recipient_reaches_all all_fine "hello"
                  (fresh true [alice; bob]) eq_refl)).
Defined.
